(** * imageprocessing: the pixel engine of [ip.js]

    A shallow embedding of [ip.js]: the neighbourhood predicates, the horror
    filter, the three channel highlighters, the compositing step and the
    command-line entry point, followed by the properties of the
    specification that were checked against them.

    Conventions.
    - [image.bitmap.data] is a Node [Buffer], a fixed-length array of bytes:
      here a [list Z], indexed by a [Z] (a JavaScript number).  Reading
      outside the buffer yields [undefined] ([None]); writing outside the
      buffer does nothing; a stored number is truncated and reduced modulo
      256.
    - A Jimp object is a mutable cell that holds a bitmap.  Cells live in a
      heap and are named by their address, so that aliasing is visible.
    - The methods of the Jimp library ([clone], [scan], [crop], [composite],
      [convolute], [write]) are not part of [ip.js]; they are modelled after
      the library's documented behaviour, and the two that compute in
      floating point ([convolute] and the blend mode of [composite]) are
      parameters of the development.  The blend mode that [composite] uses
      by default, source-over, is also given as the library computes it, in
      double precision ([Double.blend]). *)

From Stdlib Require Import ZArith Lia Bool Ascii QArith Qround Qminmax.
From Stdlib Require PrimFloat FloatOps SpecFloat Uint63.
From stdpp Require Import base tactics option list list_numbers strings pretty.

Local Open Scope Z_scope.

(* ===================================================================== *)
(** * Part I.  The model                                                  *)
(* ===================================================================== *)

(** ** Byte buffers *)

Module Buf.

Abbreviation Buffer := (list Z).

(** [imageData[i]]: [None] stands for [undefined]. *)
Definition read (d : Buffer) (i : Z) : option Z :=
  if i <? 0 then None else d !! Z.to_nat i.

(** [imageData[i] = v] for an integer [v]. *)
Definition write (d : Buffer) (i : Z) (v : Z) : Buffer :=
  if i <? 0 then d else <[Z.to_nat i := v mod 256]> d.

(** Every stored sample is a byte. *)
Definition bytes (d : Buffer) : Prop := Forall (fun b => 0 <= b < 256) d.

Definition len (d : Buffer) : Z := Z.of_nat (length d).

End Buf.

Import Buf.

(** ** NeighborPredicate: [isPixelColored] and [isPixelSurrounded] *)

(** [v > 100] for a value read from the buffer; [undefined > 100] is false. *)
Definition gt100 (v : option Z) : bool :=
  match v with
  | Some b => 100 <? b
  | None => false
  end.

(** ip.js, lines 315-317. *)
Definition isPixelColored (imageData : Buffer) (pixel : Z) : bool :=
  gt100 (read imageData pixel)
  || gt100 (read imageData (pixel + 1))
  || gt100 (read imageData (pixel + 2)).

(** [if (guard && colored) { count = count + 1; }] *)
Definition tally (count : Z) (hit : bool) : Z :=
  if hit then count + 1 else count.

(** The four probes of the branch [threshold === 1] (lines 272-284). *)
Definition countAtOne (imageData : Buffer) (imageWidth imageHeight pixel : Z) : Z :=
  let count := 0 in
  let count := tally count
    ((pixel + 4 <? imageWidth * imageHeight * 4)
     && isPixelColored imageData (pixel + 4)) in
  let count := tally count
    ((0 <? pixel - 4) && isPixelColored imageData (pixel - 4)) in
  let count := tally count
    ((0 <? pixel - imageWidth * 4)
     && isPixelColored imageData (pixel - imageWidth * 4)) in
  let count := tally count
    ((pixel + imageWidth * 4 <? imageWidth * imageHeight * 4)
     && isPixelColored imageData (pixel + imageWidth * 4)) in
  count.

(** The four probes of the other branch (lines 289-301). *)
Definition countBeyond (imageData : Buffer)
    (imageWidth imageHeight pixel threshold : Z) : Z :=
  let count := 0 in
  let count := tally count
    ((pixel + 4 * threshold <? imageWidth * imageHeight * 4)
     && isPixelColored imageData (pixel + 4 * threshold)) in
  let count := tally count
    ((0 <? pixel - 4 * threshold)
     && isPixelColored imageData (pixel - 4 * threshold)) in
  let count := tally count
    ((0 <? pixel - (imageWidth * 4 - threshold))
     && isPixelColored imageData (pixel - imageWidth * 4 + threshold)) in
  let count := tally count
    ((pixel + (imageWidth * 4 + threshold) <? imageWidth * imageHeight * 4)
     && isPixelColored imageData (pixel + imageWidth * 4 + threshold)) in
  count.

(** ip.js, lines 266-307.  The recursion of the source is not structural,
    so the nesting depth of the calls is bounded by [fuel]; [None] means
    that the bound was reached before the outermost call returned. *)
Fixpoint isPixelSurrounded_fuel (fuel : nat) (imageData : Buffer)
    (imageWidth imageHeight pixel threshold : Z) : option bool :=
  match fuel with
  | O => None
  | S fuel' =>
      if threshold =? 1 then
        Some (2 <=? countAtOne imageData imageWidth imageHeight pixel)
      else if 2 <=? countBeyond imageData imageWidth imageHeight pixel threshold
      then isPixelSurrounded_fuel fuel' imageData imageWidth imageHeight pixel
             (threshold - 1)
      else Some false
  end.

(** A nesting depth that is always enough (lemma
    [isPixelSurrounded_fuel_enough]): [threshold] calls from a threshold of at
    least 1 down to 1; from a threshold below 1 the probes have all left the
    buffer after [reach] more calls. *)
Definition reach (imageData : Buffer) (imageWidth pixel : Z) : Z :=
  Z.abs pixel + 4 * Z.abs imageWidth + len imageData + 3.

Definition depth (imageData : Buffer) (imageWidth pixel threshold : Z) : nat :=
  if 1 <=? threshold then Z.to_nat threshold
  else S (Z.to_nat (threshold + reach imageData imageWidth pixel)).

(** The function as its callers see it: the value that the call returns
    when the call stack has room for its nesting.  The callers of [ip.js]
    all pass the threshold 1, where the call does not nest. *)
Definition isPixelSurrounded (imageData : Buffer)
    (imageWidth imageHeight pixel threshold : Z) : bool :=
  default false
    (isPixelSurrounded_fuel (depth imageData imageWidth pixel threshold)
       imageData imageWidth imageHeight pixel threshold).

(** The call returns [b] on every call stack that has room for [fuel]
    nested calls of the function. *)
Definition returnsWithin (fuel : nat) (imageData : Buffer)
    (imageWidth imageHeight pixel threshold : Z) (b : bool) : Prop :=
  forall n, (fuel <= n)%nat ->
    isPixelSurrounded_fuel n imageData imageWidth imageHeight pixel threshold
    = Some b.

(** On a call stack with room for [stack] nested calls of the function the
    call does not return: the nesting exhausts the stack, where JavaScript
    raises [RangeError: Maximum call stack size exceeded]. *)
Definition overflows (stack : nat) (imageData : Buffer)
    (imageWidth imageHeight pixel threshold : Z) : Prop :=
  isPixelSurrounded_fuel stack imageData imageWidth imageHeight pixel threshold
  = None.

(** *** The branch [threshold === 1] with its reads recorded

    [Reads A] is a value together with the indices at which the buffer was
    read to obtain it, in order.  [||] and [&&] evaluate their right operand
    only when the left one does not decide. *)

Module Traced.

Definition Reads (A : Type) : Type := A * list Z.

Definition value {A} (m : Reads A) : A := fst m.
Definition reads {A} (m : Reads A) : list Z := snd m.

Definition const {A} (a : A) : Reads A := (a, []).

Definition readAt (d : Buffer) (i : Z) : Reads (option Z) := (read d i, [i]).

Definition map {A B} (f : A -> B) (m : Reads A) : Reads B :=
  (f (value m), reads m).

Definition orElse (a b : Reads bool) : Reads bool :=
  if value a then a else (value b, reads a ++ reads b).

Definition andAlso (a b : Reads bool) : Reads bool :=
  if value a then (value b, reads a ++ reads b) else a.

Definition isPixelColored (imageData : Buffer) (pixel : Z) : Reads bool :=
  orElse
    (orElse (map gt100 (readAt imageData pixel))
            (map gt100 (readAt imageData (pixel + 1))))
    (map gt100 (readAt imageData (pixel + 2))).

Definition tally (count : Reads Z) (hit : Reads bool) : Reads Z :=
  (if value hit then value count + 1 else value count,
   reads count ++ reads hit).

Definition countAtOne (imageData : Buffer)
    (imageWidth imageHeight pixel : Z) : Reads Z :=
  let count := const 0 in
  let count := tally count
    (andAlso (const (pixel + 4 <? imageWidth * imageHeight * 4))
             (isPixelColored imageData (pixel + 4))) in
  let count := tally count
    (andAlso (const (0 <? pixel - 4))
             (isPixelColored imageData (pixel - 4))) in
  let count := tally count
    (andAlso (const (0 <? pixel - imageWidth * 4))
             (isPixelColored imageData (pixel - imageWidth * 4))) in
  let count := tally count
    (andAlso (const (pixel + imageWidth * 4 <? imageWidth * imageHeight * 4))
             (isPixelColored imageData (pixel + imageWidth * 4))) in
  count.

End Traced.

(** *** The count as the specification words it

    The number of the four neighbours (east, west, north, south) whose
    offset lies in [[0, width*height*4)] and that are colored. *)

Definition inBounds (imageWidth imageHeight offset : Z) : bool :=
  (0 <=? offset) && (offset <? imageWidth * imageHeight * 4).

Definition neighbours (imageWidth pixel : Z) : list Z :=
  [pixel + 4; pixel - 4; pixel - imageWidth * 4; pixel + imageWidth * 4].

Definition coloredInBounds (imageData : Buffer)
    (imageWidth imageHeight pixel : Z) : Z :=
  foldl (fun count o =>
           tally count (inBounds imageWidth imageHeight o
                        && isPixelColored imageData o))
        0 (neighbours imageWidth pixel).

(** ** Bitmaps and the Jimp methods used by [ip.js] *)

Record Bitmap := mkBitmap { width : Z; height : Z; data : Buffer }.

(** The invariant of a decoded image. *)
Definition wellFormed (im : Bitmap) : Prop :=
  0 <= width im /\ 0 <= height im
  /\ len (data im) = width im * height im * 4
  /\ bytes (data im).

(** A pixel: red, green, blue, alpha. *)
Definition Pixel : Type := Z * Z * Z * Z.

Definition alpha (px : Pixel) : Z := snd px.

(** Offset of the pixel at column [x], row [y]. *)
Definition offsetOf (im : Bitmap) (x y : Z) : Z := 4 * (width im * y + x).

Definition pixelAt (d : Buffer) (idx : Z) : option Pixel :=
  match read d idx, read d (idx + 1), read d (idx + 2), read d (idx + 3) with
  | Some r, Some g, Some b, Some a => Some (r, g, b, a)
  | _, _, _, _ => None
  end.

Definition getPixel (im : Bitmap) (x y : Z) : option Pixel :=
  pixelAt (data im) (offsetOf im x y).

(** Four stores, in the order of the source:
    [data[idx] = r; data[idx + 1] = g; data[idx + 2] = b; data[idx + 3] = a]. *)
Definition paint (d : Buffer) (idx : Z) (r g b a : Z) : Buffer :=
  write (write (write (write d idx r) (idx + 1) g) (idx + 2) b) (idx + 3) a.

(** [image.scan(x, y, w, h, f)]: rows from top to bottom, each from left to
    right; the callback receives the column, the row and the offset of the
    pixel, [(width * y + x) << 2] (four times the pixel number, for an image
    of fewer than 2^29 pixels), and works on the bitmap's own buffer: a pixel
    visited later sees what the callback stored in the pixels before it.
    The callbacks of [ip.js] also read [image.bitmap.width] and
    [image.bitmap.height]; these are the first two arguments of [f]. *)
Definition scanOrder (x y w h : Z) : list (Z * Z) :=
  y' ← seqZ y h; (fun x' => (x', y')) <$> seqZ x w.

Definition scanData (W : Z) (x y w h : Z)
    (f : Z -> Z -> Z -> Buffer -> Buffer) (d : Buffer) : Buffer :=
  foldl (fun d '(x', y') => f x' y' (4 * (W * y' + x')) d) d
        (scanOrder x y w h).

Definition scan (x y w h : Z)
    (f : Z -> Z -> Z -> Z -> Z -> Buffer -> Buffer) (im : Bitmap) : Bitmap :=
  {| width := width im; height := height im;
     data := scanData (width im) x y w h (f (width im) (height im)) (data im) |}.

(** [image.crop(x, y, w, h)]: the [w] by [h] region whose top left corner is
    [(x, y)].  A region that is not inside the image is outside the
    library's contract ([w < 0] makes the allocation of the new buffer
    raise): [None]. *)
Definition crop (x y w h : Z) (im : Bitmap) : option Bitmap :=
  if (0 <=? x) && (0 <=? y) && (0 <=? w) && (0 <=? h)
     && (x + w <=? width im) && (y + h <=? height im)
  then Some {| width := w; height := h;
               data := '(x', y') ← scanOrder x y w h;
                       take 4 (drop (Z.to_nat (offsetOf im x' y')) (data im)) |}
  else None.

(** The parts of Jimp that compute in floating point. *)
Class Jimp := {
  (** [image.convolute(kernel)] on the bitmap of [image]. *)
  convolute : list (list Z) -> Bitmap -> Bitmap;
  (** The blend mode of [composite]: source pixel, then destination pixel. *)
  blend : Pixel -> Pixel -> Pixel
}.

(** [base.composite(src, x, y)]: every pixel of [src] is blended onto the
    pixel of [base] at the same position shifted by [(x, y)]; pixels of [src]
    that fall outside [base] are not drawn. *)
Definition composite `{Jimp} (src : Bitmap) (x y : Z) (base : Bitmap) : Bitmap :=
  {| width := width base; height := height base;
     data :=
       foldl (fun d '(sx, sy) =>
                if (0 <=? x + sx) && (x + sx <? width base)
                   && (0 <=? y + sy) && (y + sy <? height base)
                then
                  let dstIdx := offsetOf base (x + sx) (y + sy) in
                  match pixelAt (data src) (offsetOf src sx sy), pixelAt d dstIdx with
                  | Some s, Some b =>
                      let '(r, g, b', a) := blend s b in paint d dstIdx r g b' a
                  | _, _ => d
                  end
                else d)
             (data base) (scanOrder 0 0 (width src) (height src)) |}.

(** *** A reference instance: source-over blending in exact arithmetic

    With channels scaled to [[0, 1]], Jimp computes
    [a = da + sa - da*sa] and [c = (sc*sa + dc*da*(1 - sa)) / a], stores
    [c * 255] and [a * 255]; a division by zero stores 0.  The library does
    this in double precision ([Double.blend] below); the exact quotients of
    this instance agree with it over an opaque pixel and can differ by one
    elsewhere. *)
Definition srcOver (s d : Pixel) : Pixel :=
  let '(sr, sg, sb, sa) := s in
  let '(dr, dg, db, da) := d in
  let den := 255 * (da + sa) - da * sa in
  let channel sc dc :=
    if den =? 0 then 0 else (sc * sa * 255 + dc * da * (255 - sa)) / den in
  (channel sr dr, channel sg dg, channel sb db, den / 255).

(** A 3x3 kernel applied with the border pixels repeated; sums are clamped to
    a byte, alpha is kept.  It stands in for the library's convolution where
    the program is run on an example; nothing is stated of a convolved
    value. *)
Definition clamp (lo hi v : Z) : Z := Z.max lo (Z.min hi v).

Definition sample (im : Bitmap) (x y c : Z) : Z :=
  default 0
    (read (data im)
       (offsetOf im (clamp 0 (width im - 1) x) (clamp 0 (height im - 1) y) + c)).

Definition kernelAt (kernel : list (list Z)) (row col : Z) : Z :=
  default 0 (kernel !! Z.to_nat row ≫= fun r => r !! Z.to_nat col).

Definition convolved (kernel : list (list Z)) (im : Bitmap) (x y c : Z) : Z :=
  clamp 0 255
    (foldl Z.add 0
       ('(col, row) ← scanOrder 0 0 3 3;
        [kernelAt kernel row col * sample im (x + col - 1) (y + row - 1) c])).

Definition convolute3 (kernel : list (list Z)) (im : Bitmap) : Bitmap :=
  {| width := width im; height := height im;
     data := '(x, y) ← scanOrder 0 0 (width im) (height im);
             [convolved kernel im x y 0; convolved kernel im x y 1;
              convolved kernel im x y 2; sample im x y 3] |}.

Definition exactJimp : Jimp := {| convolute := convolute3; blend := srcOver |}.

(** *** Source-over blending as Jimp computes it

    For every pixel of the source, [composite] divides the four bytes of the
    source pixel and of the pixel below it by 255 and gives them to the blend
    mode, [srcOver] by default, with the opacity [ops = 1]:
<<
      src.a *= ops;
      const a = dst.a + src.a - dst.a * src.a;
      const r = (src.r * src.a + dst.r * dst.a * (1 - src.a)) / a;
>>
    ([g] and [b] alike), all in double precision.  It then stores
    [limit255(r * 255)], ..., [limit255(a * 255)] in the buffer, which
    truncates a number to a byte and stores 0 for [NaN]. *)
Module Double.

Import PrimFloat.

(** A byte (or any number below 2^63) as a double. *)
Definition toDouble (c : Z) : float := of_uint63 (Uint63.of_Z c).

(** [data[i] / 255] *)
Definition fraction (c : Z) : float := (toDouble c / toDouble 255)%float.

(** [limit255(n)]: [Math.min(Math.max(n, 0), 255)]; [NaN] stays [NaN]. *)
Definition limit255 (n : float) : float :=
  let n := if (n <? toDouble 0)%float then toDouble 0 else n in
  if (toDouble 255 <? n)%float then toDouble 255 else n.

(** [data[i] = v]: the number is truncated towards zero and reduced modulo
    256; [NaN] and the infinities are stored as 0. *)
Definition toByte (v : float) : Z :=
  match FloatOps.Prim2SF v with
  | SpecFloat.S754_finite sign m e =>
      let n := if 0 <=? e then Z.shiftl (Z.pos m) e else Z.shiftr (Z.pos m) (- e) in
      (if sign then - n else n) mod 256
  | _ => 0
  end.

(** [a] of [srcOver]. *)
Definition srcOverAlpha (sa da : float) : float := (da + sa - da * sa)%float.

(** [r], [g] and [b] of [srcOver]. *)
Definition srcOverColour (sc sa dc da : float) : float :=
  ((sc * sa + dc * da * (toDouble 1 - sa)) / srcOverAlpha sa da)%float.

(** The bytes that [composite] stores. *)
Definition blendColour (sc sa dc da : Z) : Z :=
  toByte (limit255
            (srcOverColour (fraction sc) (fraction sa * toDouble 1) (fraction dc) (fraction da)
             * toDouble 255)%float).

Definition blendAlpha (sa da : Z) : Z :=
  toByte (limit255
            (srcOverAlpha (fraction sa * toDouble 1) (fraction da) * toDouble 255)%float).

Definition blend (s d : Pixel) : Pixel :=
  let '(sr, sg, sb, sa) := s in
  let '(dr, dg, db, da) := d in
  (blendColour sr sa dr da, blendColour sg sa dg da, blendColour sb sa db da,
   blendAlpha sa da).

End Double.

(** Jimp with its default blend mode; the convolution stays a parameter. *)
Definition doubleJimp (convolute : list (list Z) -> Bitmap -> Bitmap) : Jimp :=
  {| convolute := convolute; blend := Double.blend |}.

(** ** HorrorFilter: the callback of the scan (lines 127-154) *)

(** [(data[a] + data[b] + data[c]) / 3] as an exact rational.  The source
    computes it in double precision; rounding a quotient by 3 of an integer
    neither reorders two such means, nor moves one across 100 or across an
    integer, so the minimum taken and the byte stored below are the same.
    [None] is [NaN]: one of the samples was [undefined]. *)
Definition mean3 (d : Buffer) (a b c : Z) : option Q :=
  x ← read d a; y ← read d b; z ← read d c;
  Some (inject_Z (x + y + z) / inject_Z 3)%Q.

(** A mean of bytes is a number that is not negative, or [NaN]. *)
Definition nonNegative (m : option Q) : Prop :=
  forall q, m = Some q -> (inject_Z 0 <= q)%Q.

(** [Math.min(n, e, s, w, 100)]: [NaN] as soon as one argument is. *)
Definition min5 (n e s w : option Q) : option Q :=
  n' ← n; e' ← e; s' ← s; w' ← w;
  Some (Qmin n' (Qmin e' (Qmin s' (Qmin w' (inject_Z 100))))).

(** The integer that a byte array stores for a number ([write] reduces it
    modulo 256): [NaN] becomes 0, a fraction is cut off. *)
Definition toInteger (v : option Q) : Z :=
  match v with
  | None => 0
  | Some q => if Qle_bool (inject_Z 0) q then Qfloor q else Qceiling q
  end.

Definition horrorPixel (imageWidth imageHeight : Z) (x y idx : Z)
    (d : Buffer) : Buffer :=
  if isPixelSurrounded d imageWidth imageHeight idx 1 then
    let northMeanRed := mean3 d (idx - imageWidth * 4 - 4) (idx - imageWidth * 4) (idx - imageWidth * 4 + 4) in
    let northMeanGreen := mean3 d (idx - imageWidth * 4 - 3) (idx - imageWidth * 4 + 1) (idx - imageWidth * 4 + 5) in
    let northMeanBlue := mean3 d (idx - imageWidth * 4 - 2) (idx - imageWidth * 4 + 2) (idx - imageWidth * 4 + 6) in
    let eastMeanRed := mean3 d (idx - imageWidth * 4 + 4) (idx + 4) (idx + imageWidth * 4 + 4) in
    let eastMeanGreen := mean3 d (idx - imageWidth * 4 + 5) (idx + 5) (idx + imageWidth * 4 + 5) in
    let eastMeanBlue := mean3 d (idx - imageWidth * 4 + 6) (idx + 6) (idx + imageWidth * 4 + 6) in
    let southMeanRed := mean3 d (idx + imageWidth * 4 - 4) (idx - imageWidth * 4) (idx - imageWidth * 4 + 4) in
    let southMeanGreen := mean3 d (idx + imageWidth * 4 - 3) (idx - imageWidth * 4 + 1) (idx - imageWidth * 4 + 5) in
    let southMeanBlue := mean3 d (idx + imageWidth * 4 - 2) (idx - imageWidth * 4 + 2) (idx - imageWidth * 4 + 6) in
    let westMeanRed := mean3 d (idx - imageWidth * 4 - 4) (idx + imageWidth * 4) (idx + imageWidth * 4 + 4) in
    let westMeanGreen := mean3 d (idx - imageWidth * 4 - 3) (idx + imageWidth * 4 + 1) (idx + imageWidth * 4 + 5) in
    let westMeanBlue := mean3 d (idx - imageWidth * 4 - 2) (idx + imageWidth * 4 + 2) (idx + imageWidth * 4 + 6) in
    paint d idx
      (toInteger (min5 northMeanRed eastMeanRed southMeanRed westMeanRed))
      (toInteger (min5 northMeanGreen eastMeanGreen southMeanGreen westMeanGreen))
      (toInteger (min5 northMeanBlue eastMeanBlue southMeanBlue westMeanBlue))
      255
  else d.

(** ** ChannelHighlighter: the callback of the scan

    The three functions of the source (lines 169-184, 203-217, 235-249)
    differ in the colour written only, which is the argument [(r, g, b)]. *)
Definition highlightPixel (r g b : Z) (imageWidth imageHeight : Z)
    (x y idx : Z) (d : Buffer) : Buffer :=
  if isPixelColored d idx then
    if isPixelSurrounded d imageWidth imageHeight idx 1
    then paint d idx r g b 255
    else d
  else paint d idx 0 0 0 0.

Definition X_OFFSET : Z := 50.

(** What [processRedImage], [processGreenImage] and [processBlueImage] do to
    their clone: the scan, then the crop. *)
Definition highlightScan (r g b : Z) (im : Bitmap) : Bitmap :=
  scan 0 0 (width im) (height im) (highlightPixel r g b) im.

Definition redBitmap (im : Bitmap) : option Bitmap :=
  let image := highlightScan 255 0 0 im in
  crop 0 0 (width image - X_OFFSET) (height image) image.

Definition greenBitmap (im : Bitmap) : option Bitmap :=
  let image := highlightScan 0 255 0 im in
  crop 0 0 (width image - X_OFFSET) (height image) image.

Definition blueBitmap (im : Bitmap) : option Bitmap :=
  let image := highlightScan 0 0 255 im in
  crop X_OFFSET 0 (width image - X_OFFSET) (height image) image.

Definition horrorBitmap (im : Bitmap) : Bitmap :=
  scan 0 0 (width im) (height im) horrorPixel im.

(** What lines 70-72 do to [originalImage]. *)
Definition compositeBitmap `{Jimp} (original red blue : Bitmap) : option Bitmap :=
  let layered := composite red 0 0 (composite blue 0 0 original) in
  crop 0 0 (width layered - 50) (height layered) layered.

(** ** The program: Jimp objects in a heap, the console, the files written *)

Record World := mkWorld {
  heap : list Bitmap;               (* the bitmap of each Jimp object *)
  console : list string;            (* the lines printed by console.log *)
  disk : list (string * Bitmap)     (* the images written, with their paths *)
}.

Inductive Outcome (A : Type) : Type :=
| Done (a : A)
| Thrown (err : string).
Arguments Done {A} a.
Arguments Thrown {A} err.

Definition M (A : Type) : Type := World -> Outcome A * World.

#[global] Instance M_ret : MRet M := fun A a σ => (Done a, σ).

#[global] Instance M_bind : MBind M := fun A B k m σ =>
  match m σ with
  | (Done a, σ') => k a σ'
  | (Thrown e, σ') => (Thrown e, σ')
  end.

Definition throw {A} (err : string) : M A := fun σ => (Thrown err, σ).

(** [promise.catch(handler)] *)
Definition catch {A} (m : M A) (handler : string -> M A) : M A := fun σ =>
  match m σ with
  | (Done a, σ') => (Done a, σ')
  | (Thrown e, σ') => handler e σ'
  end.

Fixpoint forEach {A} (f : A -> M unit) (l : list A) : M unit :=
  match l with
  | [] => mret ()
  | a :: l' => f a ;; forEach f l'
  end.

(** [console.log(line)] *)
Definition log (line : string) : M unit := fun σ =>
  (Done (), {| heap := heap σ; console := console σ ++ [line]; disk := disk σ |}).

(** A new Jimp object. *)
Definition alloc (bm : Bitmap) : M nat := fun σ =>
  (Done (length (heap σ)),
   {| heap := heap σ ++ [bm]; console := console σ; disk := disk σ |}).

(** [image.bitmap] *)
Definition bitmap (image : nat) : M Bitmap := fun σ =>
  match heap σ !! image with
  | Some bm => (Done bm, σ)
  | None => (Thrown "TypeError", σ)
  end.

(** [image.bitmap] is replaced or mutated. *)
Definition setBitmap (image : nat) (bm : Bitmap) : M unit := fun σ =>
  (Done (),
   {| heap := <[image := bm]> (heap σ); console := console σ; disk := disk σ |}).

(** [img.clone()]: a new object with a copy of the pixel data. *)
Definition clone (img : nat) : M nat :=
  bm ← bitmap img; alloc bm.

(** [image.write(filename)]: the image as it is now goes to the file. *)
Definition save (filename : string) (bm : Bitmap) : M unit := fun σ =>
  (Done (),
   {| heap := heap σ; console := console σ; disk := disk σ ++ [(filename, bm)] |}).

Definition writeFile (image : nat) (filename : string) : M unit :=
  bm ← bitmap image; save filename bm.

Definition convoluteIn `{Jimp} (image : nat) (kernel : list (list Z)) : M unit :=
  bm ← bitmap image; setBitmap image (convolute kernel bm).

Definition scanIn (image : nat) (x y w h : Z)
    (f : Z -> Z -> Z -> Z -> Z -> Buffer -> Buffer) : M unit :=
  bm ← bitmap image; setBitmap image (scan x y w h f bm).

Definition cropIn (image : nat) (x y w h : Z) : M unit :=
  bm ← bitmap image;
  match crop x y w h bm with
  | Some bm' => setBitmap image bm'
  | None => throw "RangeError"
  end.

Definition compositeIn `{Jimp} (base src : nat) (x y : Z) : M unit :=
  s ← bitmap src; b ← bitmap base; setBitmap base (composite s x y b).

(** What the program is given: its arguments, the file system, the decoder
    of [JIMP.read] (an image or the text of the error), and the time
    [moment.format("HH:mm")] taken once when the program starts. *)
Class Host := {
  argv : list string;
  existsSync : string -> bool;
  readdirSync : string -> list string;
  decode : string -> Bitmap + string;
  hhmm : string
}.

Definition IMAGE_EXTENSIONS : list string := [".png"; ".jpg"; ".jpeg"; ".gif"].
Definition OUTPUT_DIR : string := "output".

(** Lines 336-338. *)
Definition getCurrentTime `{Host} : string := "[" +:+ hhmm +:+ "] ".

(** Lines 89-98. *)
Definition processEdgeDetect `{Host, Jimp} (img : nat) (filename : string) : M unit :=
  image ← clone img;
  convoluteIn image [[1; 1; 1]; [1; -8; 1]; [1; 1; 1]];;
  writeFile image filename;;
  log (getCurrentTime +:+ "> Edge detection image saved as <" +:+ filename +:+ ">.").

(** Lines 106-115. *)
Definition processSharpen `{Host, Jimp} (img : nat) (filename : string) : M unit :=
  image ← clone img;
  convoluteIn image [[0; -1; 0]; [-1; 5; -1]; [0; -1; 0]];;
  writeFile image filename;;
  log (getCurrentTime +:+ "> Sharpen image saved as <" +:+ filename +:+ ">.").

(** Lines 125-160. *)
Definition processHorrorFilter `{Host} (img : nat) (filename : string) : M nat :=
  image ← clone img;
  bm ← bitmap image;
  scanIn image 0 0 (width bm) (height bm) horrorPixel;;
  writeFile image filename;;
  log (getCurrentTime +:+ "> Horror Filter version of image saved as <" +:+ filename +:+ ">.");;
  mret image.

(** Lines 167-192. *)
Definition processRedImage `{Host} (img : nat) (filename : string) : M nat :=
  image ← clone img;
  bm ← bitmap image;
  scanIn image 0 0 (width bm) (height bm) (highlightPixel 255 0 0);;
  bm ← bitmap image;
  cropIn image 0 0 (width bm - X_OFFSET) (height bm);;
  writeFile image filename;;
  log (getCurrentTime +:+ "> Red version of image saved as <" +:+ filename +:+ ">.");;
  mret image.

(** Lines 200-225. *)
Definition processGreenImage `{Host} (img : nat) (filename : string) : M nat :=
  image ← clone img;
  bm ← bitmap image;
  scanIn image 0 0 (width bm) (height bm) (highlightPixel 0 255 0);;
  bm ← bitmap image;
  cropIn image 0 0 (width bm - X_OFFSET) (height bm);;
  writeFile image filename;;
  log (getCurrentTime +:+ "> Green version of image saved as <" +:+ filename +:+ ">.");;
  mret image.

(** Lines 233-256. *)
Definition processBlueImage `{Host} (img : nat) (filename : string) : M nat :=
  image ← clone img;
  bm ← bitmap image;
  scanIn image 0 0 (width bm) (height bm) (highlightPixel 0 0 255);;
  bm ← bitmap image;
  cropIn image X_OFFSET 0 (width bm - X_OFFSET) (height bm);;
  writeFile image filename;;
  log (getCurrentTime +:+ "> Blue version of image saved as <" +:+ filename +:+ ">.");;
  mret image.

(** The six filter operations, as one family. *)
Inductive Filter : Type := EdgeDetect | Sharpen | Horror | Red | Green | Blue.

Definition runFilter `{Host, Jimp} (f : Filter) (img : nat) (filename : string) : M unit :=
  match f with
  | EdgeDetect => processEdgeDetect img filename
  | Sharpen => processSharpen img filename
  | Horror => processHorrorFilter img filename;; mret ()
  | Red => processRedImage img filename;; mret ()
  | Green => processGreenImage img filename;; mret ()
  | Blue => processBlueImage img filename;; mret ()
  end.

(** Lines 69-75, with the variables in scope as arguments. *)
Definition compositeStage `{Host, Jimp}
    (originalImage redImage greenImage blueImage : nat) (name : string) : M unit :=
  log (getCurrentTime +:+ "> All images R G B filtered out.  Producing composite images...");;
  compositeIn originalImage blueImage 0 0;;
  compositeIn originalImage redImage 0 0;;
  bm ← bitmap originalImage;
  cropIn originalImage 0 0 (width bm - 50) (height bm);;
  writeFile originalImage (OUTPUT_DIR +:+ "/" +:+ name +:+ "-composite.png");;
  log (getCurrentTime +:+ "> Composite image produced as <" +:+ OUTPUT_DIR +:+ "/" +:+ name +:+ "-composite.png>.").

(** Lines 57-75: the callback that receives the decoded image. *)
Definition onImage `{Host, Jimp} (image : nat) (name : string) : M unit :=
  bm ← bitmap image;
  log (getCurrentTime +:+ "> Image is " +:+ pretty (width bm) +:+ "x" +:+ pretty (height bm) +:+ ".");;
  originalImage ← clone image;
  processEdgeDetect image (OUTPUT_DIR +:+ "/" +:+ name +:+ "-ed.png");;
  processSharpen image (OUTPUT_DIR +:+ "/" +:+ name +:+ "-sharpen.png");;
  processHorrorFilter image (OUTPUT_DIR +:+ "/" +:+ name +:+ "-horror.png");;
  redImage ← processRedImage image (OUTPUT_DIR +:+ "/" +:+ name +:+ "-red.png");
  greenImage ← processGreenImage image (OUTPUT_DIR +:+ "/" +:+ name +:+ "-green.png");
  blueImage ← processBlueImage image (OUTPUT_DIR +:+ "/" +:+ name +:+ "-blue.png");
  compositeStage originalImage redImage greenImage blueImage name.

(** [file.lastIndexOf(".")] and [file.substring(start, end)]. *)
Fixpoint lastIndexFrom (c : Ascii.ascii) (s : string) (i found : Z) : Z :=
  match s with
  | EmptyString => found
  | String a s' => lastIndexFrom c s' (i + 1) (if Ascii.eqb a c then i else found)
  end.

Definition lastIndexOf (c : Ascii.ascii) (s : string) : Z := lastIndexFrom c s 0 (-1).

Definition substring (s : string) (start stop : Z) : string :=
  let n := Z.of_nat (String.length s) in
  let a := clamp 0 n start in
  let b := clamp 0 n stop in
  String.substring (Z.to_nat (Z.min a b)) (Z.to_nat (Z.max a b - Z.min a b)) s.

Definition extensionOf (file : string) : string :=
  substring file (lastIndexOf "."%char file) (Z.of_nat (String.length file)).

Definition nameOf (file : string) : string :=
  substring file 0 (lastIndexOf "."%char file).

(** Lines 49-81.  The loop over the directory prints one line per image
    file and starts its decoding; the callbacks run after the loop has
    ended, here in the order of the listing. *)
Definition loadFolder `{Host, Jimp} (folder : string) : M unit :=
  log (getCurrentTime +:+ "Loading folder " +:+ folder +:+ ". . .");;
  let images :=
    filter (fun file => extensionOf file ∈ IMAGE_EXTENSIONS) (readdirSync folder) in
  forEach (fun file =>
             log (getCurrentTime +:+ "'" +:+ nameOf file +:+ extensionOf file
                  +:+ "' found.  Processing image..."))
          images;;
  forEach (fun file =>
             match decode (folder +:+ "/" +:+ nameOf file +:+ extensionOf file) with
             | inl bm => catch (image ← alloc bm; onImage image (nameOf file)) log
             | inr err => log err
             end)
          images.

(** Lines 323-330. *)
Definition errorHandle (args : list string) : M unit :=
  log "Error loading from folder.";;
  if (3 <=? length args)%nat
  then log "Folder not found or could not be read."
  else log "No folder name found; check arguments.".

(** Lines 39-43. *)
Definition main `{Host, Jimp} : M unit :=
  if (3 <=? length argv)%nat && existsSync (default "" (argv !! 2%nat))
  then loadFolder (default "" (argv !! 2%nat))
  else errorHandle argv.

(** The world in which the program starts. *)
Definition start : World := {| heap := []; console := []; disk := [] |}.

(** ** Observing a run *)

(** The bitmap of the object that a filter returns. *)
Definition returned (m : M nat) (σ : World) : option Bitmap :=
  match m σ with
  | (Done image, σ') => heap σ' !! image
  | (Thrown _, _) => None
  end.

(** The world [σ] with the bitmap of the object [image] replaced. *)
Definition withBitmap (image : nat) (bm : Bitmap) (σ : World) : World :=
  {| heap := <[image := bm]> (heap σ); console := console σ; disk := disk σ |}.

(** The filters run one after the other on the same image. *)
Definition runFilters `{Host, Jimp} (fs : list (Filter * string)) (img : nat) : M unit :=
  forEach (fun '(f, filename) => runFilter f img filename) fs.


(** ** Small concrete inputs *)

(** A well-formed host and library to run the program with. *)
Definition noArgument : Host :=
  {| argv := ["node"; "ip.js"]; existsSync := fun _ => false;
     readdirSync := fun _ => []; decode := fun _ => inr "no such file";
     hhmm := "09:30" |}.

Definition missingFolder : Host :=
  {| argv := ["node"; "ip.js"; "pictures"]; existsSync := fun _ => false;
     readdirSync := fun _ => []; decode := fun _ => inr "no such file";
     hhmm := "09:30" |}.

(** [n] opaque black pixels. *)
Definition black (n : nat) : Buffer := mjoin (replicate n [0; 0; 0; 255]).

(** A 3 by 2 image: the pixels at offsets 0 and 8 are colored,
<<
      (200,0,0)  (0,0,0)  (200,0,0)
      (0,0,0)    (0,0,0)  (0,0,0)
>>
    so the pixel at offset 4 has a colored neighbour on either side. *)
Definition strip : Buffer :=
  [200; 0; 0; 255] ++ black 1 ++ [200; 0; 0; 255] ++ black 3.

(** A 53 by 3 image, black but for one colored pixel at column 1, row 1
    (offset [4 * (53 * 1 + 1) = 216]). *)
Definition lonely : Bitmap :=
  {| width := 53; height := 3;
     data := black 54 ++ [200; 10; 20; 255] ++ black 104 |}.


(** A 150 by 1 image, black but for one colored pixel at column 120. *)
Definition wide : Bitmap :=
  {| width := 150; height := 1;
     data := black 120 ++ [200; 0; 0; 255] ++ black 29 |}.

(** A world with one Jimp object, at address 0. *)
Definition holding (im : Bitmap) : World :=
  {| heap := [im]; console := []; disk := [] |}.

(** Four objects for the composite stage: a black image 51 pixels wide, and
    three images of one pixel, opaque red, opaque green and opaque blue. *)
Definition dot (r g b a : Z) : Bitmap :=
  {| width := 1; height := 1; data := [r; g; b; a] |}.

Definition layers : World :=
  {| heap := [ {| width := 51; height := 1; data := black 51 |};
               dot 255 0 0 255; dot 0 255 0 255; dot 0 0 255 255 ];
     console := []; disk := [] |}.

(** The six filters in the order of [loadFolder]. *)
Definition allSix : list (Filter * string) :=
  [(EdgeDetect, "output/a-ed.png"); (Sharpen, "output/a-sharpen.png");
   (Horror, "output/a-horror.png"); (Red, "output/a-red.png");
   (Green, "output/a-green.png"); (Blue, "output/a-blue.png")].

(** A [w] by [h] image of one bright, almost transparent colour. *)
Definition bright (w h : Z) : Bitmap :=
  {| width := w; height := h;
     data := mjoin (replicate (Z.to_nat (w * h)) [240; 230; 220; 7]) |}.

(** A folder with two image files, one of which does not decode, and two
    files that are not taken for images. *)
Definition pictures : Host :=
  {| argv := ["node"; "ip.js"; "pics"];
     existsSync := fun _ => true;
     readdirSync := fun _ => ["a.png"; "notes.txt"; "b.PNG"; "c.gif"];
     decode := fun path =>
       if String.eqb path "pics/a.png" then inl lonely
       else inr ("Error: " +:+ path);
     hhmm := "10:00" |}.

(** An opaque white image. *)
Definition white (w h : Z) : Bitmap :=
  {| width := w; height := h; data := replicate (Z.to_nat (w * h * 4)) 255 |}.

(** A 53 by 3 image, transparent black but for crosses of five pixels
    [(240, 230, 220, a)] whose centres are in row 1, at the columns of
    [centres]:
<<
      .  #  .
      #  #  #
      .  #  .
>>
    The centre of a cross is colored and surrounded; its arms are colored
    and not surrounded. *)
Definition crosses (centres : list Z) (a : Z) : Bitmap :=
  {| width := 53; height := 3;
     data := '(x, y) ← scanOrder 0 0 53 3;
             if existsb (fun c => Z.abs (x - c) + Z.abs (y - 1) <=? 1) centres
             then [240; 230; 220; a] else [0; 0; 0; 0] |}.

(** Opaque crosses at columns 1 and 51: the Red result is opaque at (1, 1),
    and so is the Blue result, which shows column 51 there. *)
Definition twoCrosses : Bitmap := crosses [1; 51] 255.

(** One cross at column 1, almost transparent. *)
Definition faintCross : Bitmap := crosses [1] 5.

(** ** Notions used to state further properties *)

(** What a highlighter with colour [(r, g, b)] makes of the pixel at column
    [x], row [y] of the image [im]. *)
Definition highlighted (r g b : Z) (im : Bitmap) (x y : Z) : option Pixel :=
  if isPixelColored (data im) (offsetOf im x y) then
    if isPixelSurrounded (data im) (width im) (height im) (offsetOf im x y) 1
    then Some (r, g, b, 255)
    else getPixel im x y
  else Some (0, 0, 0, 0).

(** The colours written by [processRedImage], [processGreenImage] and
    [processBlueImage]. *)
Definition highlightColours : list (Z * Z * Z) :=
  [(255, 0, 0); (0, 255, 0); (0, 0, 255)].

(** The pixel at column [x], row [y] is in the image and colored. *)
Definition colouredAt (im : Bitmap) (x y : Z) : bool :=
  (0 <=? x) && (x <? width im) && (0 <=? y) && (y <? height im)
  && isPixelColored (data im) (offsetOf im x y).

(** How many of the pixels to the east, west, north and south are. *)
Definition colouredNeighbours (im : Bitmap) (x y : Z) : Z :=
  foldl (fun count '(x', y') => tally count (colouredAt im x' y')) 0
        [(x + 1, y); (x - 1, y); (x, y - 1); (x, y + 1)].

(** The files written for the image file whose name without extension is
    [name], in the order in which they are written. *)
Definition outputNames (name : string) : list string :=
  (fun suffix => OUTPUT_DIR +:+ "/" +:+ name +:+ suffix)
    <$> ["-ed.png"; "-sharpen.png"; "-horror.png"; "-red.png"; "-green.png";
         "-blue.png"; "-composite.png"].

(** The files of the folder that [loadFolder] takes for images. *)
Definition imageFiles `{Host} (folder : string) : list string :=
  filter (fun file => extensionOf file ∈ IMAGE_EXTENSIONS) (readdirSync folder).

(** The path given to [JIMP.read] for a file of the folder. *)
Definition pathOf (folder file : string) : string :=
  folder +:+ "/" +:+ nameOf file +:+ extensionOf file.

(** The names of the files written for a file of the folder: none when it
    does not decode. *)
Definition writtenFor `{Host} (folder file : string) : list string :=
  match decode (pathOf folder file) with
  | inl _ => outputNames (nameOf file)
  | inr _ => []
  end.

(** The computation [m], however it ends, adds files to the disk whose names
    are all in [names], and does nothing else to the disk. *)
Definition writesOnly {A} (names : list string) (m : M A) : Prop :=
  forall σ, exists files,
    disk (snd (m σ)) = disk σ ++ files /\ Forall (fun f => fst f ∈ names) files.

(** What [loadFolder] does for one image file once the loop over the
    directory has ended: the two callbacks given to the promise of
    [JIMP.read] (lines 57-77). *)
Definition onFile `{Host, Jimp} (folder file : string) : M unit :=
  match decode (pathOf folder file) with
  | inl bm => catch (image ← alloc bm; onImage image (nameOf file)) log
  | inr err => log err
  end.

(** The line printed for an image file when the loop over the directory
    finds it (line 55). *)
Definition announcement `{Host} (file : string) : string :=
  getCurrentTime +:+ "'" +:+ nameOf file +:+ extensionOf file
  +:+ "' found.  Processing image...".
(* ===================================================================== *)
(** * Part II.  Properties                                                *)
(* ===================================================================== *)

(** ** Buffers and coloredness *)

Section BufferFacts.

Implicit Types (d : Buffer) (i j v : Z).

Lemma read_None_low d i : i < 0 -> read d i = None.
Proof. intros H. unfold read. destruct (Z.ltb_spec i 0); [done | lia]. Qed.

Lemma read_None_high d i : len d <= i -> read d i = None.
Proof.
  intros H. unfold read, len in *. destruct (Z.ltb_spec i 0); [done |].
  apply lookup_ge_None_2. lia.
Qed.

Lemma read_is_Some d i : 0 <= i < len d -> is_Some (read d i).
Proof.
  intros H. unfold read, len in *. destruct (Z.ltb_spec i 0); [lia |].
  apply lookup_lt_is_Some_2. lia.
Qed.

Lemma length_write d i v : length (write d i v) = length d.
Proof. unfold write. destruct (i <? 0); [done | apply length_insert]. Qed.

Lemma len_write d i v : len (write d i v) = len d.
Proof. unfold len. by rewrite length_write. Qed.

Lemma read_write_ne d i j v : i <> j -> read (write d i v) j = read d j.
Proof.
  intros H. unfold read, write.
  destruct (Z.ltb_spec j 0); [done |].
  destruct (Z.ltb_spec i 0); [done |].
  apply list_lookup_insert_ne. lia.
Qed.

Lemma read_write_eq d i v :
  0 <= i < len d -> read (write d i v) i = Some (v mod 256).
Proof.
  intros H. unfold read, write, len in *.
  destruct (Z.ltb_spec i 0); [lia |].
  apply list_lookup_insert_eq. lia.
Qed.

Lemma bytes_write d i v : bytes d -> bytes (write d i v).
Proof.
  intros H. unfold write. destruct (i <? 0); [done |].
  unfold bytes. apply Forall_insert; [done |].
  apply Z.mod_pos_bound. lia.
Qed.

Lemma bytes_read d i b : bytes d -> read d i = Some b -> 0 <= b < 256.
Proof.
  unfold bytes, read. intros H. destruct (i <? 0); [done |].
  intros Hl. exact (Forall_lookup_1 _ _ _ _ H Hl).
Qed.

End BufferFacts.

Section ColoredFacts.

Implicit Types (d : Buffer) (o : Z).

Lemma isPixelColored_low d o : o + 2 < 0 -> isPixelColored d o = false.
Proof.
  intros H. unfold isPixelColored.
  rewrite !read_None_low by lia. done.
Qed.

Lemma isPixelColored_high d o : len d <= o -> isPixelColored d o = false.
Proof.
  intros H. unfold isPixelColored.
  rewrite !read_None_high by lia. done.
Qed.

(** Coloredness looks at the three colour samples of one pixel only. *)
Lemma isPixelColored_ext d d' o :
  (forall k, 0 <= k < 3 -> read d' (o + k) = read d (o + k)) ->
  isPixelColored d' o = isPixelColored d o.
Proof.
  intros H. unfold isPixelColored.
  rewrite <- (Z.add_0_r o) at 1 4.
  rewrite !H by lia. done.
Qed.

End ColoredFacts.

(* ===================================================================== *)
(** * [isPixelSurrounded] returns                                         *)
(* ===================================================================== *)

Section Termination.

Variables (d : Buffer) (w h p : Z).

Lemma tally_bounds c b : c <= tally c b <= c + 1.
Proof. unfold tally. destruct b; lia. Qed.

(** More fuel never changes a result that was reached. *)
Lemma isPixelSurrounded_fuel_mono n m t b :
  (n <= m)%nat ->
  isPixelSurrounded_fuel n d w h p t = Some b ->
  isPixelSurrounded_fuel m d w h p t = Some b.
Proof.
  revert m t. induction n as [|n IH]; intros m t Hnm; [done |].
  destruct m as [|m]; [lia |]. simpl.
  destruct (t =? 1); [done |].
  destruct (2 <=? countBeyond d w h p t); [| done].
  apply IH. lia.
Qed.

(** From a threshold at least 1 the base case is reached after
    [threshold] nested calls. *)
Lemma isPixelSurrounded_fuel_down n t :
  1 <= t -> (Z.to_nat t <= n)%nat ->
  is_Some (isPixelSurrounded_fuel n d w h p t).
Proof.
  revert t. induction n as [|n IH]; intros t Ht Hn; [lia |]. simpl.
  destruct (Z.eqb_spec t 1) as [-> | Hne]; [by eexists |].
  destruct (2 <=? countBeyond d w h p t); [| by eexists].
  apply IH; lia.
Qed.

(** Far enough below zero every probe has left the buffer. *)
Lemma countBeyond_far t :
  t <= - reach d w p -> countBeyond d w h p t = 0.
Proof.
  unfold reach. intros Ht. unfold countBeyond.
  assert (Hlen : 0 <= len d) by (unfold len; lia).
  rewrite (isPixelColored_low d (p + 4 * t)) by lia.
  rewrite (isPixelColored_high d (p - 4 * t)) by lia.
  rewrite (isPixelColored_low d (p + w * 4 + t)) by lia.
  rewrite !andb_false_r.
  destruct (Z.ltb_spec 0 (p - (w * 4 - t))) as [Hg | _]; [lia |].
  done.
Qed.

(** Below 1 the base case is never reached, but the short-circuit [&&]
    ends the recursion as soon as fewer than two probes are colored. *)
Lemma isPixelSurrounded_fuel_below n t :
  t <= 0 -> t + reach d w p <= Z.of_nat n ->
  is_Some (isPixelSurrounded_fuel (S n) d w h p t).
Proof.
  revert t. induction n as [|n IH]; intros t Ht Hn.
  - cbn [isPixelSurrounded_fuel].
    destruct (Z.eqb_spec t 1); [lia |].
    rewrite countBeyond_far by lia. by eexists.
  - cbn [isPixelSurrounded_fuel].
    destruct (Z.eqb_spec t 1); [lia |].
    destruct (2 <=? countBeyond d w h p t); [| by eexists].
    apply IH; lia.
Qed.

Lemma isPixelSurrounded_fuel_depth t :
  is_Some (isPixelSurrounded_fuel (depth d w p t) d w h p t).
Proof.
  unfold depth. destruct (Z.leb_spec 1 t).
  - apply isPixelSurrounded_fuel_down; lia.
  - apply isPixelSurrounded_fuel_below; lia.
Qed.

(** Any nesting bound of at least [depth] yields the value of
    [isPixelSurrounded]. *)
Lemma isPixelSurrounded_fuel_enough n t :
  (depth d w p t <= n)%nat ->
  isPixelSurrounded_fuel n d w h p t = Some (isPixelSurrounded d w h p t).
Proof.
  intros Hn. destruct (isPixelSurrounded_fuel_depth t) as [b Hb].
  unfold isPixelSurrounded. rewrite Hb. simpl.
  by apply (isPixelSurrounded_fuel_mono (depth d w p t)).
Qed.

(** The two equations of the source. *)
Lemma isPixelSurrounded_one :
  isPixelSurrounded d w h p 1 = (2 <=? countAtOne d w h p).
Proof. reflexivity. Qed.

Lemma isPixelSurrounded_step t :
  t <> 1 ->
  isPixelSurrounded d w h p t =
  (2 <=? countBeyond d w h p t) && isPixelSurrounded d w h p (t - 1).
Proof.
  intros Ht.
  pose proof (isPixelSurrounded_fuel_enough
                (S (depth d w p t + depth d w p (t - 1))) t) as E.
  cbn [isPixelSurrounded_fuel] in E.
  destruct (Z.eqb_spec t 1); [done |].
  destruct (2 <=? countBeyond d w h p t); simpl.
  - rewrite isPixelSurrounded_fuel_enough in E by lia.
    symmetry. apply (inj Some). apply E. lia.
  - symmetry. apply (inj Some). apply E. lia.
Qed.

End Termination.

Section BelowOne.

Variables (d : Buffer) (w h p : Z).

(** From a threshold below 1 the only way out of the recursion is [false]. *)
Lemma isPixelSurrounded_fuel_below_false n t b :
  t <= 0 -> isPixelSurrounded_fuel n d w h p t = Some b -> b = false.
Proof.
  revert t. induction n as [|n IH]; intros t Ht; [done |]. simpl.
  destruct (Z.eqb_spec t 1); [lia |].
  destruct (2 <=? countBeyond d w h p t).
  - apply IH. lia.
  - congruence.
Qed.

Lemma isPixelSurrounded_below t : t <= 0 -> isPixelSurrounded d w h p t = false.
Proof.
  intros Ht. apply (isPixelSurrounded_fuel_below_false (depth d w p t) t); [done |].
  apply isPixelSurrounded_fuel_enough. lia.
Qed.

End BelowOne.

(** *** A threshold below 1 on a large image *)

Lemma isPixelColored_white (n : nat) (i : Z) :
  0 <= i < Z.of_nat n -> isPixelColored (replicate n 255) i = true.
Proof.
  intros Hi. unfold isPixelColored, read.
  destruct (Z.ltb_spec i 0); [lia |].
  rewrite lookup_replicate_2 by lia. reflexivity.
Qed.

(** The call stays in the recursion for as long as two probes are colored
    at each level. *)
Lemma isPixelSurrounded_fuel_exhausted (d : Buffer) (w h p : Z) (n : nat) (t : Z) :
  t <= 0 ->
  (forall t', t - Z.of_nat n < t' <= t -> 2 <= countBeyond d w h p t') ->
  isPixelSurrounded_fuel n d w h p t = None.
Proof.
  revert t. induction n as [| n IH]; intros t Ht Hcount; [done |].
  cbn [isPixelSurrounded_fuel].
  destruct (Z.eqb_spec t 1); [lia |].
  destruct (Z.leb_spec 2 (countBeyond d w h p t)) as [_ | Hlt].
  - apply IH; [lia |]. intros t' Ht'. apply Hcount. lia.
  - specialize (Hcount t). lia.
Qed.

(** In an image one pixel wide the third and the fourth probe of a level
    below 1 are the bytes [4 - threshold] before and [4 + threshold] after
    the pixel. *)
Lemma countBeyond_white (rows p t : Z) :
  t <= 0 -> 4 - t < p -> p + 4 < rows * 4 ->
  2 <= countBeyond (data (white 1 rows)) 1 rows p t.
Proof.
  intros Ht Hlow Hhigh. unfold countBeyond, white. cbn [data].
  replace (1 * rows * 4) with (rows * 4) by lia.
  destruct (Z.ltb_spec 0 (p - (1 * 4 - t))); [| lia].
  destruct (Z.ltb_spec (p + (1 * 4 + t)) (rows * 4)); [| lia].
  rewrite (isPixelColored_white _ (p - 1 * 4 + t)) by lia.
  rewrite (isPixelColored_white _ (p + 1 * 4 + t)) by lia.
  cbn [andb].
  match goal with
  | |- 2 <= tally (tally (tally (tally 0 ?east) ?west) true) true =>
      pose proof (tally_bounds 0 east); pose proof (tally_bounds (tally 0 east) west);
      generalize dependent (tally (tally 0 east) west); intros
  end.
  unfold tally. lia.
Qed.



(* ===================================================================== *)
(** * The branch [threshold === 1]                                        *)
(* ===================================================================== *)

Section AtOne.

Variables (d : Buffer) (w h p : Z).

Lemma countAtOne_bounds : 0 <= countAtOne d w h p <= 4.
Proof.
  unfold countAtOne, tally.
  repeat match goal with
         | |- context [if ?b then _ else _] => destruct b
         end; lia.
Qed.

(** Where the code and the wording of the specification agree: the pixel is
    in the image and neither its western nor its northern neighbour sits at
    offset 0. *)
Lemma countAtOne_coloredInBounds :
  0 <= w -> 0 <= p < w * h * 4 -> p <> 4 -> p <> w * 4 ->
  countAtOne d w h p = coloredInBounds d w h p.
Proof.
  intros Hw Hp H4 Hw4. unfold countAtOne, coloredInBounds, neighbours, inBounds.
  cbn [foldl].
  repeat match goal with
         | |- context [Z.ltb ?a ?b] => destruct (Z.ltb_spec a b)
         | |- context [Z.leb ?a ?b] => destruct (Z.leb_spec a b)
         end; cbn [andb]; try reflexivity; lia.
Qed.

(** What the code counts, whatever the pixel: a western or northern
    neighbour at offset 0 is left out. *)
Lemma isPixelSurrounded_one_iff :
  isPixelSurrounded d w h p 1 = true <-> 2 <= countAtOne d w h p.
Proof. rewrite isPixelSurrounded_one. apply Z.leb_le. Qed.

End AtOne.

(** C2 at the failing input: in the 3 by 2 image [strip], two of the
    neighbours of the pixel at offset 4 are in bounds and colored (the ones
    at offsets 0 and 8), and [isPixelSurrounded] answers [false], because
    the guard [pixel - 4 > 0] leaves the neighbour at offset 0 out. *)
Theorem isPixelSurrounded_misses_offset_zero :
  coloredInBounds strip 3 2 4 = 2
  /\ inBounds 3 2 (4 - 4) = true
  /\ isPixelColored strip (4 - 4) = true
  /\ countAtOne strip 3 2 4 = 1
  /\ isPixelSurrounded strip 3 2 4 1 = false.
Proof. repeat split; vm_compute; reflexivity. Qed.

(* ===================================================================== *)
(** * The reads of the branch [threshold === 1]                           *)
(* ===================================================================== *)

Section Reads.

Variables (d : Buffer).

Lemma isPixelColored_value o :
  Traced.value (Traced.isPixelColored d o) = isPixelColored d o.
Proof.
  unfold Traced.isPixelColored, isPixelColored, Traced.orElse, Traced.map, Traced.readAt, Traced.value.
  cbn [fst snd].
  destruct (gt100 (read d o)); [done |]. cbn [fst snd].
  destruct (gt100 (read d (o + 1))); done.
Qed.

(** A coloredness test Traced.reads the colour samples of its pixel only. *)
Lemma isPixelColored_reads o :
  Forall (fun i => o <= i <= o + 2) (Traced.reads (Traced.isPixelColored d o)).
Proof.
  unfold Traced.isPixelColored, Traced.orElse, Traced.map, Traced.readAt, Traced.value, Traced.reads.
  cbn [fst snd].
  destruct (gt100 (read d o)); cbn [fst snd app].
  - repeat constructor; lia.
  - destruct (gt100 (read d (o + 1))); cbn [fst snd app];
      repeat constructor; lia.
Qed.

Lemma guarded_value (g : bool) o :
  Traced.value (Traced.andAlso (Traced.const g) (Traced.isPixelColored d o))
  = g && isPixelColored d o.
Proof.
  unfold Traced.andAlso, Traced.const, Traced.value. cbn [fst snd].
  destruct g; cbn [fst snd andb]; [| done]. apply isPixelColored_value.
Qed.

Lemma guarded_reads (P : Z -> Prop) (g : bool) o :
  (g = true -> forall i, o <= i <= o + 2 -> P i) ->
  Forall P (Traced.reads (Traced.andAlso (Traced.const g) (Traced.isPixelColored d o))).
Proof.
  intros HP. unfold Traced.andAlso, Traced.const, Traced.value, Traced.reads. cbn [fst snd].
  destruct g; cbn [fst snd app]; [| constructor].
  eapply Forall_impl; [apply isPixelColored_reads |].
  cbn beta. intros i Hi. by apply HP.
Qed.

Lemma tally_value c hit :
  Traced.value (Traced.tally c hit) = tally (Traced.value c) (Traced.value hit).
Proof. reflexivity. Qed.

Lemma tally_reads (P : Z -> Prop) c hit :
  Forall P (Traced.reads c) -> Forall P (Traced.reads hit) -> Forall P (Traced.reads (Traced.tally c hit)).
Proof. intros Hc Hh. unfold Traced.tally, Traced.reads. cbn [snd]. by apply Forall_app. Qed.

Lemma countAtOne_value w h p :
  Traced.value (Traced.countAtOne d w h p) = countAtOne d w h p.
Proof.
  unfold Traced.countAtOne, countAtOne.
  rewrite !tally_value, !guarded_value. reflexivity.
Qed.

End Reads.

(** C10: in the branch [threshold === 1], for a positive width and a pixel
    index that is a multiple of 4 in [[0, width*height*4)], the recorded run
    computes the count of the source, and every index at which it reads the
    buffer lies in [[0, width*height*4)]; so on a buffer of that length no
    read is out of bounds (none yields [undefined]). *)
Theorem countAtOne_reads_in_bounds
    (imageData : Buffer) (imageWidth imageHeight pixel : Z) :
  0 < imageWidth -> pixel mod 4 = 0 ->
  0 <= pixel < imageWidth * imageHeight * 4 ->
  Traced.value (Traced.countAtOne imageData imageWidth imageHeight pixel)
  = countAtOne imageData imageWidth imageHeight pixel
  /\ Forall (fun i => 0 <= i < imageWidth * imageHeight * 4)
       (Traced.reads (Traced.countAtOne imageData imageWidth imageHeight pixel))
  /\ (len imageData = imageWidth * imageHeight * 4 ->
      Forall (fun i => is_Some (read imageData i))
        (Traced.reads (Traced.countAtOne imageData imageWidth imageHeight pixel))).
Proof.
  intros Hw Hmod Hp.
  assert (Hin : Forall (fun i => 0 <= i < imageWidth * imageHeight * 4)
       (Traced.reads (Traced.countAtOne imageData imageWidth imageHeight pixel))).
  { assert (Hk : pixel = 4 * (pixel / 4)).
    { pose proof (Z.div_mod pixel 4). lia. }
    set (k := pixel / 4) in *. clearbody k.
    unfold Traced.countAtOne.
    repeat apply tally_reads; try (by constructor);
      apply guarded_reads; intros Hg i Hi; cbn beta.
    - apply Z.ltb_lt in Hg. nia.
    - apply Z.ltb_lt in Hg. nia.
    - apply Z.ltb_lt in Hg. nia.
    - apply Z.ltb_lt in Hg. nia. }
  split; [apply countAtOne_value |]. split; [exact Hin |].
  intros Hlen. eapply Forall_impl; [exact Hin |].
  cbn beta. intros i Hi. apply read_is_Some. lia.
Qed.

Lemma countAtOne_reads_in_bounds_witness :
  Traced.value (Traced.countAtOne strip 3 2 4) = countAtOne strip 3 2 4
  /\ Forall (fun i => 0 <= i < 3 * 2 * 4) (Traced.reads (Traced.countAtOne strip 3 2 4))
  /\ (len strip = 3 * 2 * 4 ->
      Forall (fun i => is_Some (read strip i))
        (Traced.reads (Traced.countAtOne strip 3 2 4))).
Proof.
  apply (countAtOne_reads_in_bounds strip 3 2 4); [lia | reflexivity | lia].
Defined.

(* ===================================================================== *)
(** * Scans: updates in place, one pixel at a time                        *)
(* ===================================================================== *)

Section Paint.

Implicit Types (d : Buffer) (idx j r g b a : Z).

Lemma paint_frame d idx r g b a j :
  ~ (idx <= j < idx + 4) -> read (paint d idx r g b a) j = read d j.
Proof. intros Hj. unfold paint. rewrite !read_write_ne by lia. done. Qed.

Lemma len_paint d idx r g b a : len (paint d idx r g b a) = len d.
Proof. unfold paint. by rewrite !len_write. Qed.

Lemma bytes_paint d idx r g b a : bytes d -> bytes (paint d idx r g b a).
Proof. intros H. unfold paint. by repeat apply bytes_write. Qed.

Lemma read_paint d idx r g b a :
  0 <= idx -> idx + 3 < len d ->
  read (paint d idx r g b a) idx = Some (r mod 256)
  /\ read (paint d idx r g b a) (idx + 1) = Some (g mod 256)
  /\ read (paint d idx r g b a) (idx + 2) = Some (b mod 256)
  /\ read (paint d idx r g b a) (idx + 3) = Some (a mod 256).
Proof.
  intros H0 H3. unfold paint. repeat split.
  - rewrite !read_write_ne by lia. apply read_write_eq. lia.
  - rewrite !read_write_ne by lia. apply read_write_eq. rewrite len_write. lia.
  - rewrite !read_write_ne by lia. apply read_write_eq. rewrite !len_write. lia.
  - apply read_write_eq. rewrite !len_write. lia.
Qed.

Lemma pixelAt_paint d idx r g b a :
  0 <= idx -> idx + 3 < len d ->
  pixelAt (paint d idx r g b a) idx
  = Some (r mod 256, g mod 256, b mod 256, a mod 256).
Proof.
  intros H0 H3. unfold pixelAt.
  destruct (read_paint d idx r g b a H0 H3) as (-> & -> & -> & ->). done.
Qed.

Lemma pixelAt_ext d d' idx idx' :
  (forall k, 0 <= k < 4 -> read d' (idx' + k) = read d (idx + k)) ->
  pixelAt d' idx' = pixelAt d idx.
Proof.
  intros H. unfold pixelAt.
  pose proof (H 0 ltac:(lia)) as H0. rewrite !Z.add_0_r in H0.
  rewrite H0, !H by lia. done.
Qed.

Lemma pixelAt_bytes d idx px :
  bytes d -> pixelAt d idx = Some px ->
  let '(r, g, b, a) := px in
  0 <= r < 256 /\ 0 <= g < 256 /\ 0 <= b < 256 /\ 0 <= a < 256.
Proof.
  intros Hb. unfold pixelAt.
  destruct (read d idx) as [r|] eqn:Er; [| done].
  destruct (read d (idx + 1)) as [g|] eqn:Eg; [| done].
  destruct (read d (idx + 2)) as [b|] eqn:Eb; [| done].
  destruct (read d (idx + 3)) as [a|] eqn:Ea; [| done].
  intros [= <-]. repeat split; eapply bytes_read; eauto.
Qed.

Lemma pixelAt_is_Some d idx :
  0 <= idx -> idx + 3 < len d -> is_Some (pixelAt d idx).
Proof.
  intros H0 H3. unfold pixelAt.
  destruct (read_is_Some d idx) as [? ->]; [lia |].
  destruct (read_is_Some d (idx + 1)) as [? ->]; [lia |].
  destruct (read_is_Some d (idx + 2)) as [? ->]; [lia |].
  destruct (read_is_Some d (idx + 3)) as [? ->]; [lia |].
  by eexists.
Qed.

End Paint.

(** A fold whose step for the item [a] touches the four bytes at [key a]
    only. *)
Section InPlace.

Context {A : Type} (key : A -> Z) (step : A -> Buffer -> Buffer).

Hypothesis step_frame :
  forall a d j, ~ (key a <= j < key a + 4) -> read (step a d) j = read d j.

Let run (d : Buffer) (l : list A) : Buffer := foldl (fun d a => step a d) d l.

Lemma run_untouched l d j :
  (forall a, a ∈ l -> ~ (key a <= j < key a + 4)) ->
  read (run d l) j = read d j.
Proof.
  revert d. induction l as [|a l IH]; intros d Hl; [done |]. simpl.
  rewrite IH.
  - apply step_frame. apply Hl. by left.
  - intros a' Ha'. apply Hl. by right.
Qed.

(** An invariant of the steps is an invariant of the fold. *)
Lemma run_invariant (I : Buffer -> Prop) l d :
  (forall a d', a ∈ l -> I d' -> I (step a d')) -> I d -> I (run d l).
Proof.
  revert d. induction l as [|a l IH]; intros d Hstep Hd; [done |]. simpl.
  apply IH.
  - intros a' d' Ha'. apply Hstep. by right.
  - apply Hstep; [by left | done].
Qed.

(** The bytes of the pixel of [a] are those left by the step for [a], which
    finds the pixels before it already processed, and its own untouched. *)
Lemma run_at (I : Buffer -> Prop) l a d :
  a ∈ l ->
  NoDup (key <$> l) ->
  (forall a', a' ∈ l -> key a' mod 4 = 0) ->
  (forall a' d', a' ∈ l -> I d' -> I (step a' d')) -> I d ->
  exists d1,
    I d1
    /\ (forall k, 0 <= k < 4 -> read d1 (key a + k) = read d (key a + k))
    /\ (forall k, 0 <= k < 4 ->
          read (run d l) (key a + k) = read (step a d1) (key a + k)).
Proof.
  intros Ha Hnd Hal Hstep Hd.
  destruct (list_elem_of_split l a Ha) as (l1 & l2 & ->).
  rewrite fmap_app, fmap_cons in Hnd.
  apply NoDup_app in Hnd as (_ & Hdisj & Hnd2).
  apply NoDup_cons in Hnd2 as (Hnot2 & _).
  assert (Hfar : forall a', key a' mod 4 = 0 -> key a' <> key a ->
                 forall k, 0 <= k < 4 -> ~ (key a' <= key a + k < key a' + 4)).
  { intros a' Hm Hne k Hk.
    assert (Hma : key a mod 4 = 0) by (apply Hal, elem_of_app; right; by left).
    pose proof (Z.div_mod (key a') 4). pose proof (Z.div_mod (key a) 4). lia. }
  exists (run d l1). split; [| split].
  - apply run_invariant; [| done].
    intros a' d' Ha'. apply Hstep. apply elem_of_app. by left.
  - intros k Hk. apply run_untouched. intros a' Ha'.
    apply Hfar; [apply Hal, elem_of_app; by left | | done].
    intros Heq. apply (Hdisj (key a')).
    + by apply list_elem_of_fmap_2.
    + rewrite Heq. by left.
  - intros k Hk. unfold run. rewrite foldl_app. simpl.
    apply run_untouched. intros a' Ha'.
    apply Hfar; [apply Hal, elem_of_app; right; by right | | done].
    intros Heq. apply Hnot2. rewrite <- Heq. by apply list_elem_of_fmap_2.
Qed.

End InPlace.

Section ScanOrder.

Lemma elem_of_scanOrder x y w h x' y' :
  (x', y') ∈ scanOrder x y w h <-> (x <= x' < x + w) /\ (y <= y' < y + h).
Proof.
  unfold scanOrder. rewrite list_elem_of_bind. split.
  - intros (y0 & Hin & Hy). apply list_elem_of_fmap in Hin as (x0 & [= -> ->] & Hx).
    apply elem_of_seqZ in Hx. apply elem_of_seqZ in Hy. done.
  - intros [Hx Hy]. exists y'. split; [| by apply elem_of_seqZ].
    apply list_elem_of_fmap. exists x'. split; [done | by apply elem_of_seqZ].
Qed.

Lemma NoDup_scanOrder x y w h : NoDup (scanOrder x y w h).
Proof.
  unfold scanOrder. apply NoDup_bind.
  - intros y1 y2 [x0 y0] _ _ H1 H2.
    apply list_elem_of_fmap in H1 as (? & [= _ ->] & _).
    apply list_elem_of_fmap in H2 as (? & [= _ ->] & _). done.
  - intros y0 _. apply NoDup_fmap_2; [| apply NoDup_seqZ].
    intros ? ? [= ->]. done.
  - apply NoDup_seqZ.
Qed.

(** Inside an image of width [W], distinct pixels have distinct offsets. *)
Lemma NoDup_offsets (W w h : Z) :
  w <= W ->
  NoDup ((fun '(x, y) => 4 * (W * y + x)) <$> scanOrder 0 0 w h).
Proof.
  intros HW. apply NoDup_fmap_2_strong; [| apply NoDup_scanOrder].
  intros [x1 y1] [x2 y2] H1 H2 Heq.
  apply elem_of_scanOrder in H1. apply elem_of_scanOrder in H2.
  assert (y1 = y2) by nia. subst. assert (x1 = x2) by lia. by subst.
Qed.

End ScanOrder.

(* ===================================================================== *)
(** * [crop]                                                              *)
(* ===================================================================== *)

Section Chunks.

Context {A B : Type}.

(** Looking up in a concatenation of pieces that all have length [n]. *)
Lemma lookup_bind_uniform (f : A -> list B) (n : nat) (l : list A) (i k : nat) :
  (forall a, a ∈ l -> length (f a) = n) -> (k < n)%nat ->
  (l ≫= f) !! (i * n + k)%nat = l !! i ≫= fun a => f a !! k.
Proof.
  revert i. induction l as [|a l IH]; intros i Hlen Hk; [done |].
  rewrite bind_cons. destruct i as [|i].
  - simpl. rewrite lookup_app_l; [done |]. rewrite Hlen; [lia | by left].
  - rewrite lookup_app_r by (rewrite Hlen; [lia | by left]).
    rewrite Hlen by (by left).
    replace (S i * n + k - n)%nat with (i * n + k)%nat by lia.
    simpl. apply IH; [| done]. intros a' Ha'. apply Hlen. by right.
Qed.

Lemma length_bind_uniform (f : A -> list B) (n : nat) (l : list A) :
  (forall a, a ∈ l -> length (f a) = n) ->
  length (l ≫= f) = (length l * n)%nat.
Proof.
  induction l as [|a l IH]; intros Hlen; [done |].
  rewrite bind_cons, length_app, IH, Hlen; [simpl; lia | by left |].
  intros a' Ha'. apply Hlen. by right.
Qed.

End Chunks.

Section ScanLookup.

Variables (x y w h : Z).

Lemma length_scanOrder :
  length (scanOrder x y w h) = (Z.to_nat h * Z.to_nat w)%nat.
Proof.
  unfold scanOrder. rewrite (length_bind_uniform _ (Z.to_nat w)).
  - by rewrite length_seqZ.
  - intros y' _. by rewrite length_fmap, length_seqZ.
Qed.

(** The pixel visited in position [j * w + i] is the one at column [x + i]
    of row [y + j]. *)
Lemma lookup_scanOrder (i j : nat) :
  Z.of_nat i < w -> Z.of_nat j < h ->
  scanOrder x y w h !! (j * Z.to_nat w + i)%nat
  = Some (x + Z.of_nat i, y + Z.of_nat j).
Proof.
  intros Hi Hj. unfold scanOrder.
  rewrite (lookup_bind_uniform _ (Z.to_nat w)).
  - rewrite lookup_seqZ_lt by done. simpl.
    rewrite list_lookup_fmap, lookup_seqZ_lt by done. done.
  - intros y' _. by rewrite length_fmap, length_seqZ.
  - lia.
Qed.

End ScanLookup.

Section Crop.

Variables (x y w h : Z) (im : Bitmap).

Hypothesis region :
  0 <= x /\ 0 <= y /\ 0 <= w /\ 0 <= h /\ x + w <= width im /\ y + h <= height im.

Hypothesis size : len (data im) = width im * height im * 4.

Let cut : Bitmap :=
  {| width := w; height := h;
     data := '(x', y') ← scanOrder x y w h;
             take 4 (drop (Z.to_nat (offsetOf im x' y')) (data im)) |}.

Lemma crop_inside : crop x y w h im = Some cut.
Proof.
  unfold crop.
  destruct region as (Hx & Hy & Hw & Hh & Hxw & Hyh).
  destruct (Z.leb_spec 0 x); [| lia]. destruct (Z.leb_spec 0 y); [| lia].
  destruct (Z.leb_spec 0 w); [| lia]. destruct (Z.leb_spec 0 h); [| lia].
  destruct (Z.leb_spec (x + w) (width im)); [| lia].
  destruct (Z.leb_spec (y + h) (height im)); [| lia].
  reflexivity.
Qed.

Lemma piece_length (a : Z * Z) :
  a ∈ scanOrder x y w h ->
  length (let '(x', y') := a in
          take 4 (drop (Z.to_nat (offsetOf im x' y')) (data im))) = 4%nat.
Proof.
  destruct a as [x' y']. intros Ha. apply elem_of_scanOrder in Ha.
  rewrite length_take_le; [done |]. rewrite length_drop.
  unfold len, offsetOf in *. nia.
Qed.

Lemma len_cut : len (data cut) = w * h * 4.
Proof.
  unfold len, cut. cbn [data].
  rewrite (length_bind_uniform _ 4 _ piece_length), length_scanOrder. lia.
Qed.

Lemma bytes_cut : bytes (data im) -> bytes (data cut).
Proof.
  intros Hb. unfold bytes, cut. cbn [data]. apply Forall_bind.
  apply Forall_forall. intros [x' y'] _. cbn.
  by apply Forall_take, Forall_drop.
Qed.

(** The pixel at [(x', y')] of the cut is the pixel at [(x + x', y + y')]. *)
Lemma read_cut x' y' k :
  0 <= x' < w -> 0 <= y' < h -> 0 <= k < 4 ->
  read (data cut) (offsetOf cut x' y' + k)
  = read (data im) (offsetOf im (x + x') (y + y') + k).
Proof.
  intros Hx' Hy' Hk.
  destruct region as (Hx & Hy & Hw & Hh & Hxw & Hyh).
  unfold read, offsetOf. cbn [width data cut].
  destruct (Z.ltb_spec (4 * (w * y' + x') + k) 0); [nia |].
  destruct (Z.ltb_spec (4 * (width im * (y + y') + (x + x')) + k) 0); [nia |].
  replace (Z.to_nat (4 * (w * y' + x') + k))
    with ((Z.to_nat y' * Z.to_nat w + Z.to_nat x') * 4 + Z.to_nat k)%nat by nia.
  rewrite (lookup_bind_uniform _ 4 _ _ _ piece_length) by lia.
  rewrite lookup_scanOrder by lia. simpl.
  rewrite lookup_take_lt by lia. rewrite lookup_drop.
  f_equal. unfold offsetOf. nia.
Qed.

Lemma getPixel_cut x' y' :
  0 <= x' < w -> 0 <= y' < h ->
  getPixel cut x' y' = getPixel im (x + x') (y + y').
Proof.
  intros Hx' Hy'. unfold getPixel. apply pixelAt_ext.
  intros k Hk. by apply read_cut.
Qed.

End Crop.

(** What callers need to know about a crop that fits. *)
Lemma crop_spec (x y w h : Z) (im : Bitmap) :
  0 <= x /\ 0 <= y /\ 0 <= w /\ 0 <= h /\ x + w <= width im /\ y + h <= height im ->
  len (data im) = width im * height im * 4 ->
  exists out,
    crop x y w h im = Some out
    /\ width out = w /\ height out = h
    /\ len (data out) = w * h * 4
    /\ (bytes (data im) -> bytes (data out))
    /\ (forall x' y', 0 <= x' < w -> 0 <= y' < h ->
          getPixel out x' y' = getPixel im (x + x') (y + y')).
Proof.
  intros Hreg Hsize. eexists. split; [by apply crop_inside |].
  split; [done |]. split; [done |].
  split; [by apply len_cut |]. split; [by apply bytes_cut |].
  intros x' y' Hx' Hy'. by apply getPixel_cut.
Qed.

(* ===================================================================== *)
(** * The channel highlighters                                            *)
(* ===================================================================== *)

Section CountExt.

Variables (d d' : Buffer) (w h p : Z).

Hypothesis aligned : p mod 4 = 0.

Lemma neighbours_aligned :
  (p + 4) mod 4 = 0 /\ (p - 4) mod 4 = 0
  /\ (p - w * 4) mod 4 = 0 /\ (p + w * 4) mod 4 = 0.
Proof.
  pose proof (Z.div_mod p 4).
  pose proof (Z.div_mod (p + 4) 4). pose proof (Z.div_mod (p - 4) 4).
  pose proof (Z.div_mod (p - w * 4) 4). pose proof (Z.div_mod (p + w * 4) 4).
  pose proof (Z.mod_pos_bound (p + 4) 4). pose proof (Z.mod_pos_bound (p - 4) 4).
  pose proof (Z.mod_pos_bound (p - w * 4) 4).
  pose proof (Z.mod_pos_bound (p + w * 4) 4).
  lia.
Qed.

(** The count depends on the coloredness of whole pixels only. *)
Lemma countAtOne_ext :
  (forall o, o mod 4 = 0 -> isPixelColored d' o = isPixelColored d o) ->
  countAtOne d' w h p = countAtOne d w h p.
Proof.
  intros H. destruct neighbours_aligned as (He & Hw & Hn & Hs).
  unfold countAtOne. by rewrite !H.
Qed.

(** Uncoloring pixels can only lower the count. *)
Lemma countAtOne_mono :
  (forall o, o mod 4 = 0 ->
     isPixelColored d' o = true -> isPixelColored d o = true) ->
  countAtOne d' w h p <= countAtOne d w h p.
Proof.
  intros H. destruct neighbours_aligned as (He & Hw & Hn & Hs).
  unfold countAtOne, tally.
  pose proof (H _ He). pose proof (H _ Hw). pose proof (H _ Hn). pose proof (H _ Hs).
  destruct (isPixelColored d' (p + 4)), (isPixelColored d (p + 4)),
    (isPixelColored d' (p - 4)), (isPixelColored d (p - 4)),
    (isPixelColored d' (p - w * 4)), (isPixelColored d (p - w * 4)),
    (isPixelColored d' (p + w * 4)), (isPixelColored d (p + w * 4));
    try (exfalso; intuition congruence);
    rewrite ?andb_true_r, ?andb_false_r;
    repeat match goal with
           | |- context [if ?c then _ else _] => destruct c
           end; lia.
Qed.

End CountExt.

Section Highlight.

Variables (r g b : Z) (im : Bitmap).

Hypothesis wf : wellFormed im.

(** The highlight colour is itself a colored pixel. *)
Hypothesis vivid : 100 < r mod 256 \/ 100 < g mod 256 \/ 100 < b mod 256.

Let W := width im.
Let H := height im.
Let d0 := data im.

Let key (a : Z * Z) : Z := let '(x, y) := a in 4 * (W * y + x).
Let step (a : Z * Z) (d : Buffer) : Buffer :=
  let '(x, y) := a in highlightPixel r g b W H x y (4 * (W * y + x)) d.

(** While the scan runs, the buffer has kept its length, and every pixel is
    colored exactly when it was in the input. *)
Let I (d : Buffer) : Prop :=
  len d = len d0
  /\ forall o, o mod 4 = 0 -> isPixelColored d o = isPixelColored d0 o.

Lemma key_inside a :
  a ∈ scanOrder 0 0 W H ->
  key a mod 4 = 0 /\ 0 <= key a /\ key a + 3 < len d0.
Proof.
  destruct a as [x y]. intros Ha. apply elem_of_scanOrder in Ha.
  destruct wf as (HW & HH & Hlen & _). fold W H d0 in HW, HH, Hlen.
  unfold key. split; [| nia].
  rewrite Z.mul_comm. apply Z.mod_mul. lia.
Qed.

Lemma highlight_frame a d j :
  ~ (key a <= j < key a + 4) -> read (step a d) j = read d j.
Proof.
  destruct a as [x y]. unfold step, key, highlightPixel. intros Hj.
  destruct (isPixelColored d _); [destruct (isPixelSurrounded d _ _ _ _) |];
    try done; by apply paint_frame.
Qed.

Lemma colored_paint d idx r' g' b' a' :
  0 <= idx -> idx + 3 < len d ->
  isPixelColored (paint d idx r' g' b' a') idx
  = (100 <? r' mod 256) || (100 <? g' mod 256) || (100 <? b' mod 256).
Proof.
  intros H0 H3. unfold isPixelColored.
  destruct (read_paint d idx r' g' b' a' H0 H3) as (-> & -> & -> & _). done.
Qed.

Lemma colored_elsewhere d idx r' g' b' a' o :
  idx mod 4 = 0 -> o mod 4 = 0 -> o <> idx ->
  isPixelColored (paint d idx r' g' b' a') o = isPixelColored d o.
Proof.
  intros Hi Ho Hne. apply isPixelColored_ext. intros k Hk.
  apply paint_frame.
  pose proof (Z.div_mod idx 4). pose proof (Z.div_mod o 4). lia.
Qed.

Lemma highlight_invariant a d :
  a ∈ scanOrder 0 0 W H -> I d -> I (step a d).
Proof.
  intros Ha [Hlen Hcol]. destruct (key_inside a Ha) as (Hal & H0 & H3).
  destruct a as [x y]. unfold step, highlightPixel. unfold key in *.
  set (idx := 4 * (W * y + x)) in *.
  pose proof (Hcol idx Hal) as Hidx.
  destruct (isPixelColored d idx) eqn:Ec;
    [destruct (isPixelSurrounded d W H idx 1) |]; [| done |].
  - split; [by rewrite len_paint |]. intros o Ho.
    destruct (decide (o = idx)) as [-> | Hne].
    + rewrite colored_paint by lia. rewrite <- Hidx.
      destruct vivid as [V | [V | V]]; apply Z.ltb_lt in V; rewrite V;
        by rewrite ?orb_true_r.
    + rewrite colored_elsewhere by done. by apply Hcol.
  - split; [by rewrite len_paint |]. intros o Ho.
    destruct (decide (o = idx)) as [-> | Hne].
    + rewrite colored_paint by lia. by rewrite <- Hidx.
    + rewrite colored_elsewhere by done. by apply Hcol.
Qed.

(** The pixel written for [(x, y)] is the one the callback computes from the
    input image: the scan in place and a scan of a copy agree. *)
Lemma highlightScan_read x y k :
  0 <= x < W -> 0 <= y < H -> 0 <= k < 4 ->
  read (data (highlightScan r g b im)) (offsetOf im x y + k)
  = read (highlightPixel r g b W H x y (offsetOf im x y) d0) (offsetOf im x y + k).
Proof.
  intros Hx Hy Hk.
  assert (Ha : (x, y) ∈ scanOrder 0 0 W H) by (apply elem_of_scanOrder; lia).
  destruct (key_inside _ Ha) as (Hal & H0 & H3).
  destruct (run_at key step highlight_frame I (scanOrder 0 0 W H) (x, y) d0)
    as (d1 & [Hlen Hcol] & Hsame & Hres).
  - done.
  - apply NoDup_offsets. lia.
  - intros a' Ha'. by apply key_inside.
  - intros a' d' Ha'. by apply highlight_invariant.
  - by split.
  - unfold highlightScan, scan, scanData. cbn [data]. fold W H d0.
    change (offsetOf im x y) with (key (x, y)).
    etransitivity; [apply (Hres k Hk) |].
    unfold step, highlightPixel. unfold key in *.
    set (idx := 4 * (W * y + x)) in *.
    rewrite (Hcol idx Hal).
    rewrite !isPixelSurrounded_one.
    rewrite (countAtOne_ext d0 d1 W H idx Hal Hcol).
    destruct (isPixelColored d0 idx);
      [destruct (2 <=? countAtOne d0 W H idx) |]; [| by apply Hsame |].
    + destruct (read_paint d1 idx r g b 255) as (E0 & E1 & E2 & E3); [lia .. |].
      destruct (read_paint d0 idx r g b 255) as (F0 & F1 & F2 & F3); [lia .. |].
      assert (k = 0 \/ k = 1 \/ k = 2 \/ k = 3) as [-> | [-> | [-> | ->]]] by lia;
        rewrite ?Z.add_0_r; congruence.
    + destruct (read_paint d1 idx 0 0 0 0) as (E0 & E1 & E2 & E3); [lia .. |].
      destruct (read_paint d0 idx 0 0 0 0) as (F0 & F1 & F2 & F3); [lia .. |].
      assert (k = 0 \/ k = 1 \/ k = 2 \/ k = 3) as [-> | [-> | [-> | ->]]] by lia;
        rewrite ?Z.add_0_r; congruence.
Qed.

Lemma highlightScan_wellFormed : wellFormed (highlightScan r g b im).
Proof.
  destruct wf as (HW & HH & Hlen & Hb).
  assert (Hinv : len (data (highlightScan r g b im)) = len d0
                 /\ bytes (data (highlightScan r g b im))).
  { unfold highlightScan, scan, scanData. cbn [data]. fold d0.
    apply (run_invariant step (fun d => len d = len d0 /\ bytes d)); [| done].
    intros [x y] d' _ [Hl Hb']. unfold step, highlightPixel.
    destruct (isPixelColored d' _); [destruct (isPixelSurrounded d' _ _ _ _) |];
      try done; rewrite len_paint; split; try done; by apply bytes_paint. }
  destruct Hinv as [Hl Hb']. repeat split; try done.
  rewrite Hl. exact Hlen.
Qed.

(** Every pixel of the scanned image, from the input image. *)
Lemma highlightScan_pixel x y :
  0 <= x < W -> 0 <= y < H ->
  getPixel (highlightScan r g b im) x y
  = if isPixelColored d0 (offsetOf im x y)
    then if isPixelSurrounded d0 W H (offsetOf im x y) 1
         then Some (r mod 256, g mod 256, b mod 256, 255)
         else getPixel im x y
    else Some (0, 0, 0, 0).
Proof.
  intros Hx Hy.
  assert (Ha : (x, y) ∈ scanOrder 0 0 W H) by (apply elem_of_scanOrder; lia).
  destruct (key_inside _ Ha) as (Hal & H0 & H3).
  change (key (x, y)) with (offsetOf im x y) in *.
  unfold getPixel at 1.
  change (offsetOf (highlightScan r g b im) x y) with (offsetOf im x y).
  rewrite (pixelAt_ext (highlightPixel r g b W H x y (offsetOf im x y) d0) _
             (offsetOf im x y) (offsetOf im x y))
    by (intros k Hk; by apply highlightScan_read).
  unfold highlightPixel.
  destruct (isPixelColored d0 _); [destruct (isPixelSurrounded d0 _ _ _ _) |].
  - by rewrite pixelAt_paint.
  - done.
  - by rewrite pixelAt_paint.
Qed.

End Highlight.

(* ===================================================================== *)
(** * Running the filters                                                 *)
(* ===================================================================== *)

Section Run.

Implicit Types (σ : World) (bm : Bitmap).

Lemma bind_done {A B} (m : M A) (k : A -> M B) σ a σ' :
  m σ = (Done a, σ') -> (m ≫= k) σ = k a σ'.
Proof. intros E. unfold mbind, M_bind. by rewrite E. Qed.

Lemma bind_thrown {A B} (m : M A) (k : A -> M B) σ e σ' :
  m σ = (Thrown e, σ') -> (m ≫= k) σ = (Thrown e, σ').
Proof. intros E. unfold mbind, M_bind. by rewrite E. Qed.

Lemma lookup_snoc {A} (l : list A) (a : A) : (l ++ [a]) !! length l = Some a.
Proof. by rewrite lookup_app_r, Nat.sub_diag. Qed.

Lemma insert_snoc {A} (l : list A) (a a' : A) :
  <[length l := a']> (l ++ [a]) = l ++ [a'].
Proof.
  rewrite insert_app_r_alt by done. by rewrite Nat.sub_diag.
Qed.

Lemma bitmap_run σ image bm :
  heap σ !! image = Some bm -> bitmap image σ = (Done bm, σ).
Proof. intros E. unfold bitmap. by rewrite E. Qed.

Lemma clone_run σ img bm :
  heap σ !! img = Some bm ->
  clone img σ
  = (Done (length (heap σ)),
     {| heap := heap σ ++ [bm]; console := console σ; disk := disk σ |}).
Proof. intros E. unfold clone. by rewrite (bind_done _ _ _ _ _ (bitmap_run _ _ _ E)). Qed.

Lemma scanIn_run σ image x y w h f bm :
  heap σ !! image = Some bm ->
  scanIn image x y w h f σ
  = (Done (),
     {| heap := <[image := scan x y w h f bm]> (heap σ);
        console := console σ; disk := disk σ |}).
Proof. intros E. unfold scanIn. by rewrite (bind_done _ _ _ _ _ (bitmap_run _ _ _ E)). Qed.

Lemma cropIn_run σ image x y w h bm bm' :
  heap σ !! image = Some bm -> crop x y w h bm = Some bm' ->
  cropIn image x y w h σ
  = (Done (),
     {| heap := <[image := bm']> (heap σ);
        console := console σ; disk := disk σ |}).
Proof.
  intros E C. unfold cropIn.
  rewrite (bind_done _ _ _ _ _ (bitmap_run _ _ _ E)). by rewrite C.
Qed.

Lemma cropIn_thrown σ image x y w h bm :
  heap σ !! image = Some bm -> crop x y w h bm = None ->
  cropIn image x y w h σ = (Thrown "RangeError", σ).
Proof.
  intros E C. unfold cropIn.
  rewrite (bind_done _ _ _ _ _ (bitmap_run _ _ _ E)). by rewrite C.
Qed.

Lemma writeFile_run σ image filename bm :
  heap σ !! image = Some bm ->
  writeFile image filename σ
  = (Done (),
     {| heap := heap σ; console := console σ;
        disk := disk σ ++ [(filename, bm)] |}).
Proof. intros E. unfold writeFile. by rewrite (bind_done _ _ _ _ _ (bitmap_run _ _ _ E)). Qed.

Lemma convoluteIn_run `{Jimp} σ image kernel bm :
  heap σ !! image = Some bm ->
  convoluteIn image kernel σ
  = (Done (),
     {| heap := <[image := convolute kernel bm]> (heap σ);
        console := console σ; disk := disk σ |}).
Proof. intros E. unfold convoluteIn. by rewrite (bind_done _ _ _ _ _ (bitmap_run _ _ _ E)). Qed.

Lemma compositeIn_run `{Jimp} σ base src x y s b :
  heap σ !! src = Some s -> heap σ !! base = Some b ->
  compositeIn base src x y σ
  = (Done (),
     {| heap := <[base := composite s x y b]> (heap σ);
        console := console σ; disk := disk σ |}).
Proof.
  intros Es Eb. unfold compositeIn.
  rewrite (bind_done _ _ _ _ _ (bitmap_run _ _ _ Es)).
  by rewrite (bind_done _ _ _ _ _ (bitmap_run _ _ _ Eb)).
Qed.

End Run.

(** One step of a program whose first action runs to completion. *)
Ltac run_with lem :=
  erewrite bind_done; [| eapply lem; cbn [heap]; rewrite ?lookup_snoc, ?insert_snoc; eauto];
  cbn [heap console disk]; rewrite ?insert_snoc.

Section HighlightRun.

Context `{Host}.

Variables (σ : World) (img : nat) (filename : string) (im : Bitmap).

Hypothesis held : heap σ !! img = Some im.

(** A highlighter whose crop fits: the clone becomes the cropped scan, is
    written to the file and returned; nothing else changes in the heap. *)
Lemma processRedImage_run red :
  redBitmap im = Some red ->
  processRedImage img filename σ
  = (Done (length (heap σ)),
     {| heap := heap σ ++ [red];
        console := console σ
          ++ [getCurrentTime +:+ "> Red version of image saved as <" +:+ filename +:+ ">."];
        disk := disk σ ++ [(filename, red)] |}).
Proof.
  intros Hred. unfold processRedImage, redBitmap in *.
  run_with clone_run. run_with bitmap_run. run_with scanIn_run.
  run_with bitmap_run. run_with cropIn_run. run_with writeFile_run.
  reflexivity.
Qed.

Lemma processGreenImage_run green :
  greenBitmap im = Some green ->
  processGreenImage img filename σ
  = (Done (length (heap σ)),
     {| heap := heap σ ++ [green];
        console := console σ
          ++ [getCurrentTime +:+ "> Green version of image saved as <" +:+ filename +:+ ">."];
        disk := disk σ ++ [(filename, green)] |}).
Proof.
  intros Hgreen. unfold processGreenImage, greenBitmap in *.
  run_with clone_run. run_with bitmap_run. run_with scanIn_run.
  run_with bitmap_run. run_with cropIn_run. run_with writeFile_run.
  reflexivity.
Qed.

Lemma processBlueImage_run blue :
  blueBitmap im = Some blue ->
  processBlueImage img filename σ
  = (Done (length (heap σ)),
     {| heap := heap σ ++ [blue];
        console := console σ
          ++ [getCurrentTime +:+ "> Blue version of image saved as <" +:+ filename +:+ ">."];
        disk := disk σ ++ [(filename, blue)] |}).
Proof.
  intros Hblue. unfold processBlueImage, blueBitmap in *.
  run_with clone_run. run_with bitmap_run. run_with scanIn_run.
  run_with bitmap_run. run_with cropIn_run. run_with writeFile_run.
  reflexivity.
Qed.

Lemma processHorrorFilter_run :
  processHorrorFilter img filename σ
  = (Done (length (heap σ)),
     {| heap := heap σ ++ [horrorBitmap im];
        console := console σ
          ++ [getCurrentTime +:+ "> Horror Filter version of image saved as <" +:+ filename +:+ ">."];
        disk := disk σ ++ [(filename, horrorBitmap im)] |}).
Proof.
  unfold processHorrorFilter, horrorBitmap.
  run_with clone_run. run_with bitmap_run. run_with scanIn_run.
  run_with writeFile_run. reflexivity.
Qed.

End HighlightRun.

(* ===================================================================== *)
(** * The outputs of the channel highlighters                             *)
(* ===================================================================== *)

Section HighlightOutputs.

Context `{Host}.

Variables (σ : World) (img : nat) (im : Bitmap).

Hypothesis held : heap σ !! img = Some im.
Hypothesis wf : wellFormed im.
Hypothesis wideEnough : 50 <= width im.

Lemma cropped_scan (r g b x0 : Z) :
  0 <= x0 <= 50 ->
  exists out,
    crop x0 0 (width im - X_OFFSET) (height im) (highlightScan r g b im) = Some out
    /\ width out = width im - 50 /\ height out = height im
    /\ forall x y, 0 <= x < width im - 50 -> 0 <= y < height im ->
         getPixel out x y = getPixel (highlightScan r g b im) (x0 + x) y.
Proof.
  intros Hx0.
  pose proof (highlightScan_wellFormed r g b im wf) as (HW & HH & Hlen & _).
  destruct (crop_spec x0 0 (width im - X_OFFSET) (height im) (highlightScan r g b im))
    as (out & Hcrop & Hw & Hh & _ & _ & Hpx).
  - unfold X_OFFSET, highlightScan, scan in *. cbn [width height] in *. lia.
  - exact Hlen.
  - exists out. unfold X_OFFSET in *.
    split; [done |]. split; [done |]. split; [done |].
    intros x y Hx Hy. rewrite Hpx by lia. by rewrite Z.add_0_l.
Qed.

Lemma returned_red filename : returned (processRedImage img filename) σ = redBitmap im.
Proof.
  destruct (cropped_scan 255 0 0 0) as (out & Hcrop & _); [lia |].
  unfold returned. rewrite (processRedImage_run σ img filename im held out Hcrop).
  cbn [heap]. rewrite lookup_snoc. by symmetry.
Qed.

Lemma returned_green filename :
  returned (processGreenImage img filename) σ = greenBitmap im.
Proof.
  destruct (cropped_scan 0 255 0 0) as (out & Hcrop & _); [lia |].
  unfold returned. rewrite (processGreenImage_run σ img filename im held out Hcrop).
  cbn [heap]. rewrite lookup_snoc. by symmetry.
Qed.

Lemma returned_blue filename :
  returned (processBlueImage img filename) σ = blueBitmap im.
Proof.
  destruct (cropped_scan 0 0 255 X_OFFSET) as (out & Hcrop & _);
    [unfold X_OFFSET; lia |].
  unfold returned. rewrite (processBlueImage_run σ img filename im held out Hcrop).
  cbn [heap]. rewrite lookup_snoc. by symmetry.
Qed.

End HighlightOutputs.

(** C3 (amended): after the scan each highlighter crops its buffer to a
    region of width [width - 50] and full height.  The Red and Green outputs
    cover [[0, width-50) x [0, height)] of the scanned image.  The Blue output
    covers [[50, width) x [0, height)]: 50 pixels are trimmed from the left
    side only, and its width is [inputWidth - 50] as well. *)
Theorem highlighters_crop `{Host}
    (σ : World) (img : nat) (im : Bitmap) (redFile greenFile blueFile : string) :
  heap σ !! img = Some im -> wellFormed im -> 50 <= width im ->
  exists red green blue,
    returned (processRedImage img redFile) σ = Some red
    /\ returned (processGreenImage img greenFile) σ = Some green
    /\ returned (processBlueImage img blueFile) σ = Some blue
    /\ (width red = width im - 50 /\ height red = height im
        /\ forall x y, 0 <= x < width im - 50 -> 0 <= y < height im ->
             getPixel red x y = getPixel (highlightScan 255 0 0 im) x y)
    /\ (width green = width im - 50 /\ height green = height im
        /\ forall x y, 0 <= x < width im - 50 -> 0 <= y < height im ->
             getPixel green x y = getPixel (highlightScan 0 255 0 im) x y)
    /\ (width blue = width im - 50 /\ height blue = height im
        /\ forall x y, 0 <= x < width im - 50 -> 0 <= y < height im ->
             getPixel blue x y = getPixel (highlightScan 0 0 255 im) (50 + x) y).
Proof.
  intros Hheld Hwf Hwide.
  destruct (cropped_scan im Hwf Hwide 255 0 0 0) as (red & Cr & Wr & Hr & Pr); [lia |].
  destruct (cropped_scan im Hwf Hwide 0 255 0 0) as (green & Cg & Wg & Hg & Pg); [lia |].
  destruct (cropped_scan im Hwf Hwide 0 0 255 50) as (blue & Cb & Wb & Hb & Pb); [lia |].
  exists red, green, blue.
  rewrite (returned_red σ img im Hheld Hwf Hwide).
  rewrite (returned_green σ img im Hheld Hwf Hwide).
  rewrite (returned_blue σ img im Hheld Hwf Hwide).
  split; [exact Cr |]. split; [exact Cg |]. split; [exact Cb |].
  split; [| split]; (split; [done |]); (split; [done |]); done.
Qed.

Lemma wide_wellFormed : wellFormed wide.
Proof.
  repeat split; try (vm_compute; congruence).
  unfold bytes. apply Forall_forall. intros b Hb.
  apply list_elem_of_In in Hb. vm_compute in Hb.
  repeat (destruct Hb as [<- | Hb]; [lia |]). destruct Hb.
Qed.

Lemma highlighters_crop_witness :
  exists red green blue,
    returned (@processRedImage noArgument 0 "output/wide-red.png") (holding wide) = Some red
    /\ returned (@processGreenImage noArgument 0 "output/wide-green.png") (holding wide) = Some green
    /\ returned (@processBlueImage noArgument 0 "output/wide-blue.png") (holding wide) = Some blue
    /\ (width red = width wide - 50 /\ height red = height wide
        /\ forall x y, 0 <= x < width wide - 50 -> 0 <= y < height wide ->
             getPixel red x y = getPixel (highlightScan 255 0 0 wide) x y)
    /\ (width green = width wide - 50 /\ height green = height wide
        /\ forall x y, 0 <= x < width wide - 50 -> 0 <= y < height wide ->
             getPixel green x y = getPixel (highlightScan 0 255 0 wide) x y)
    /\ (width blue = width wide - 50 /\ height blue = height wide
        /\ forall x y, 0 <= x < width wide - 50 -> 0 <= y < height wide ->
             getPixel blue x y = getPixel (highlightScan 0 0 255 wide) (50 + x) y).
Proof.
  apply (@highlighters_crop noArgument (holding wide) 0%nat wide);
    [reflexivity | apply wide_wellFormed | vm_compute; congruence].
Defined.

(** C3, as stated, fails for Blue: on the 150 pixels wide image [wide] the
    Blue output is 100 pixels wide, not 50, and its column 70 is column 120
    of the input, which lies to the right of [width - 50 = 100]. *)
Lemma blue_crop_trims_left_only :
  exists blue,
    returned (@processBlueImage noArgument 0 "output/wide-blue.png") (holding wide)
    = Some blue
    /\ width blue = 100
    /\ width blue <> width wide - 100
    /\ getPixel blue 70 0 = Some (200, 0, 0, 255)
    /\ getPixel wide 120 0 = Some (200, 0, 0, 255)
    /\ ~ (120 < width wide - 50).
Proof.
  eexists. split; [vm_compute; reflexivity |].
  repeat split; vm_compute; congruence.
Qed.

(** A colored pixel is not transparent black. *)
Lemma colored_not_transparent (im : Bitmap) (x y : Z) :
  isPixelColored (data im) (offsetOf im x y) = true ->
  getPixel im x y <> Some (0, 0, 0, 0).
Proof.
  unfold getPixel, pixelAt, isPixelColored. intros Hc.
  destruct (read (data im) (offsetOf im x y)) as [r|]; [| done].
  destruct (read (data im) (offsetOf im x y + 1)) as [g|]; [| done].
  destruct (read (data im) (offsetOf im x y + 2)) as [b|]; [| done].
  destruct (read (data im) (offsetOf im x y + 3)) as [a|]; [| done].
  intros [= -> -> -> ->]. discriminate.
Qed.

(** C1 (amended): for every image and every pixel that is colored but not
    surrounded (at radius 1), each of the three highlighters leaves that
    pixel as it is in the input, red, green, blue and alpha; it is not made
    transparent black.  The pixel is found at the same place in the Red and
    Green outputs when it lies left of column [width - 50], and 50 columns
    to the left in the Blue output when it lies at column 50 or beyond. *)
Theorem highlighters_keep_unsurrounded `{Host}
    (σ : World) (img : nat) (im : Bitmap) (redFile greenFile blueFile : string)
    (x y : Z) :
  heap σ !! img = Some im -> wellFormed im -> 50 <= width im ->
  0 <= x < width im -> 0 <= y < height im ->
  isPixelColored (data im) (offsetOf im x y) = true ->
  isPixelSurrounded (data im) (width im) (height im) (offsetOf im x y) 1 = false ->
  getPixel im x y <> Some (0, 0, 0, 0)
  /\ exists red green blue,
       returned (processRedImage img redFile) σ = Some red
       /\ returned (processGreenImage img greenFile) σ = Some green
       /\ returned (processBlueImage img blueFile) σ = Some blue
       /\ (x < width im - 50 ->
           getPixel red x y = getPixel im x y
           /\ getPixel green x y = getPixel im x y)
       /\ (50 <= x -> getPixel blue (x - 50) y = getPixel im x y).
Proof.
  intros Hheld Hwf Hwide Hx Hy Hcol Hsur.
  split; [by apply colored_not_transparent |].
  destruct (cropped_scan im Hwf Hwide 255 0 0 0) as (red & Cr & _ & _ & Pr); [lia |].
  destruct (cropped_scan im Hwf Hwide 0 255 0 0) as (green & Cg & _ & _ & Pg); [lia |].
  destruct (cropped_scan im Hwf Hwide 0 0 255 50) as (blue & Cb & _ & _ & Pb); [lia |].
  exists red, green, blue.
  rewrite (returned_red σ img im Hheld Hwf Hwide).
  rewrite (returned_green σ img im Hheld Hwf Hwide).
  rewrite (returned_blue σ img im Hheld Hwf Hwide).
  split; [exact Cr |]. split; [exact Cg |]. split; [exact Cb |].
  assert (Hkeep : forall r g b,
             100 < r mod 256 \/ 100 < g mod 256 \/ 100 < b mod 256 ->
             getPixel (highlightScan r g b im) x y = getPixel im x y).
  { intros r g b Hv. rewrite highlightScan_pixel by done. by rewrite Hcol, Hsur. }
  split.
  - intros Hleft. rewrite Pr, Pg by lia. rewrite !Z.add_0_l.
    split; apply Hkeep; vm_compute; auto.
  - intros Hright. rewrite Pb by lia.
    replace (50 + (x - 50)) with x by lia. apply Hkeep. vm_compute; auto.
Qed.

Lemma lonely_wellFormed : wellFormed lonely.
Proof.
  repeat split; try (vm_compute; congruence).
  unfold bytes. apply Forall_forall. intros b Hb.
  apply list_elem_of_In in Hb. vm_compute in Hb.
  repeat (destruct Hb as [<- | Hb]; [lia |]). destruct Hb.
Qed.

Lemma highlighters_keep_unsurrounded_witness :
  getPixel lonely 1 1 <> Some (0, 0, 0, 0)
  /\ exists red green blue,
       returned (@processRedImage noArgument 0 "output/lonely-red.png") (holding lonely)
       = Some red
       /\ returned (@processGreenImage noArgument 0 "output/lonely-green.png") (holding lonely)
          = Some green
       /\ returned (@processBlueImage noArgument 0 "output/lonely-blue.png") (holding lonely)
          = Some blue
       /\ (1 < width lonely - 50 ->
           getPixel red 1 1 = getPixel lonely 1 1
           /\ getPixel green 1 1 = getPixel lonely 1 1)
       /\ (50 <= 1 -> getPixel blue (1 - 50) 1 = getPixel lonely 1 1).
Proof.
  apply (@highlighters_keep_unsurrounded noArgument (holding lonely) 0%nat lonely);
    [reflexivity | apply lonely_wellFormed | vm_compute; congruence
    | vm_compute; split; congruence | vm_compute; split; congruence
    | vm_compute; reflexivity | vm_compute; reflexivity].
Defined.

(** C1, as stated, fails: in the 53 by 3 image [lonely] the pixel at column
    1, row 1 is colored, its four neighbours are in the image and not
    colored, so it is not surrounded; in the Red output it is still
    [(200, 10, 20, 255)], not transparent black. *)
Lemma red_keeps_isolated_pixel :
  isPixelColored (data lonely) (offsetOf lonely 1 1) = true
  /\ Forall (fun o => inBounds 53 3 o = true /\ isPixelColored (data lonely) o = false)
       (neighbours 53 (offsetOf lonely 1 1))
  /\ isPixelSurrounded (data lonely) 53 3 (offsetOf lonely 1 1) 1 = false
  /\ (returned (@processRedImage noArgument 0 "output/lonely-red.png") (holding lonely)
      ≫= fun red => getPixel red 1 1) = Some (200, 10, 20, 255).
Proof.
  split; [vm_compute; reflexivity |].
  split; [repeat constructor; vm_compute; reflexivity |].
  split; vm_compute; reflexivity.
Qed.

(* ===================================================================== *)
(** * The horror filter                                                   *)
(* ===================================================================== *)

Section StoredValue.

Local Open Scope Q_scope.

Lemma mean3_nonNegative (d : Buffer) (a b c : Z) :
  bytes d -> nonNegative (mean3 d a b c).
Proof.
  intros Hb q. unfold mean3.
  destruct (read d a) as [x|] eqn:Ex; [| done].
  destruct (read d b) as [y|] eqn:Ey; [| done].
  destruct (read d c) as [z|] eqn:Ez; [| done].
  cbn. intros [= <-].
  pose proof (bytes_read d a x Hb Ex). pose proof (bytes_read d b y Hb Ey).
  pose proof (bytes_read d c z Hb Ez).
  unfold Qle, Qdiv, Qmult, Qinv, inject_Z. cbn. lia.
Qed.

(** The value stored for a minimum with 100 is a byte of at most 100. *)
Lemma toInteger_min5 (n e s w : option Q) :
  nonNegative n -> nonNegative e -> nonNegative s -> nonNegative w ->
  (0 <= toInteger (min5 n e s w) <= 100)%Z.
Proof.
  intros Hn He Hs Hw. unfold min5.
  destruct n as [n|]; [| cbn; lia]. destruct e as [e|]; [| cbn; lia].
  destruct s as [s|]; [| cbn; lia]. destruct w as [w|]; [| cbn; lia].
  cbn [mbind option_bind toInteger].
  set (q := Qmin n (Qmin e (Qmin s (Qmin w (inject_Z 100))))).
  assert (Hlo : inject_Z 0 <= q).
  { unfold q. repeat apply Q.min_glb; auto. unfold Qle, inject_Z; cbn; lia. }
  assert (Hhi : q <= inject_Z 100).
  { unfold q.
    eapply Qle_trans; [apply Q.le_min_r |]. eapply Qle_trans; [apply Q.le_min_r |].
    eapply Qle_trans; [apply Q.le_min_r |]. apply Q.le_min_r. }
  destruct (Qle_bool (inject_Z 0) q) eqn:E.
  - apply Qfloor_resp_le in Hlo. apply Qfloor_resp_le in Hhi.
    rewrite Qfloor_Z in Hlo, Hhi. lia.
  - apply Qle_bool_iff in Hlo. congruence.
Qed.

End StoredValue.

Section Horror.

Variable im : Bitmap.

Hypothesis wf : wellFormed im.

Let W := width im.
Let H := height im.
Let d0 := data im.

Let key (a : Z * Z) : Z := let '(x, y) := a in 4 * (W * y + x).
Let step (a : Z * Z) (d : Buffer) : Buffer :=
  let '(x, y) := a in horrorPixel W H x y (4 * (W * y + x)) d.

(** While the scan runs, the buffer keeps its length and holds bytes, and a
    pixel that is colored was colored in the input: the filter only ever
    takes the colour away. *)
Let I (d : Buffer) : Prop :=
  len d = len d0 /\ bytes d
  /\ forall o, o mod 4 = 0 -> isPixelColored d o = true -> isPixelColored d0 o = true.

Lemma horror_key_inside a :
  a ∈ scanOrder 0 0 W H ->
  key a mod 4 = 0 /\ 0 <= key a /\ key a + 3 < len d0.
Proof.
  destruct a as [x y]. intros Ha. apply elem_of_scanOrder in Ha.
  destruct wf as (HW & HH & Hlen & _). fold W H d0 in HW, HH, Hlen.
  unfold key. split; [| nia].
  rewrite Z.mul_comm. apply Z.mod_mul. lia.
Qed.

Lemma horror_frame a d j :
  ~ (key a <= j < key a + 4) -> read (step a d) j = read d j.
Proof.
  destruct a as [x y]. unfold step, key, horrorPixel. intros Hj.
  destruct (isPixelSurrounded d _ _ _ _); [| done]. by apply paint_frame.
Qed.

(** What the filter stores in a gated pixel is not colored. *)
Lemma horror_uncolors d x y idx :
  bytes d -> 0 <= idx -> idx + 3 < len d ->
  isPixelSurrounded d W H idx 1 = true ->
  isPixelColored (horrorPixel W H x y idx d) idx = false.
Proof.
  intros Hb H0 H3 Hgate. unfold horrorPixel. rewrite Hgate.
  rewrite colored_paint by done.
  repeat match goal with
         | |- context [toInteger (min5 ?n ?e ?s ?w)] =>
             let B := fresh "B" in
             assert (B : 0 <= toInteger (min5 n e s w) <= 100)
               by (apply toInteger_min5; by apply mean3_nonNegative);
             generalize dependent (toInteger (min5 n e s w)); intros
         end.
  rewrite !Z.mod_small by lia.
  repeat match goal with
         | |- context [Z.ltb ?a ?b] => destruct (Z.ltb_spec a b); [lia |]
         end.
  done.
Qed.

Lemma horror_invariant a d :
  a ∈ scanOrder 0 0 W H -> I d -> I (step a d).
Proof.
  intros Ha (Hlen & Hb & Hcol). destruct (horror_key_inside a Ha) as (Hal & H0 & H3).
  destruct a as [x y]. unfold step, key in *.
  set (idx := 4 * (W * y + x)) in *.
  destruct (isPixelSurrounded d W H idx 1) eqn:Hgate.
  - pose proof (horror_uncolors d x y idx Hb H0 ltac:(lia) Hgate) as Hun.
    unfold horrorPixel in *. rewrite Hgate in *.
    split; [by rewrite len_paint |]. split; [by apply bytes_paint |].
    intros o Ho. destruct (decide (o = idx)) as [-> | Hne].
    + rewrite Hun. done.
    + rewrite colored_elsewhere by done. by apply Hcol.
  - unfold horrorPixel. rewrite Hgate. done.
Qed.

(** Every pixel of the filtered image: either the pixel of the input, or an
    opaque pixel written where the input pixel was surrounded. *)
Lemma horrorBitmap_pixel x y :
  0 <= x < W -> 0 <= y < H ->
  getPixel (horrorBitmap im) x y = getPixel im x y
  \/ (isPixelSurrounded d0 W H (offsetOf im x y) 1 = true
      /\ exists r g b, getPixel (horrorBitmap im) x y = Some (r, g, b, 255)).
Proof.
  intros Hx Hy.
  assert (Ha : (x, y) ∈ scanOrder 0 0 W H) by (apply elem_of_scanOrder; lia).
  destruct (horror_key_inside _ Ha) as (Hal & H0 & H3).
  destruct wf as (_ & _ & _ & Hbytes).
  destruct (run_at key step horror_frame I (scanOrder 0 0 W H) (x, y) d0)
    as (d1 & (Hlen & Hb1 & Hcol) & Hsame & Hres).
  - done.
  - apply NoDup_offsets. lia.
  - intros a' Ha'. by apply horror_key_inside.
  - intros a' d' Ha'. by apply horror_invariant.
  - done.
  - assert (E : getPixel (horrorBitmap im) x y
                = pixelAt (step (x, y) d1) (key (x, y))).
    { unfold getPixel. apply pixelAt_ext. intros k Hk.
      unfold horrorBitmap, scan, scanData. cbn [data]. by apply Hres. }
    rewrite E. unfold step, key in *.
    set (idx := 4 * (W * y + x)) in *. unfold horrorPixel.
    destruct (isPixelSurrounded d1 W H idx 1) eqn:Hgate.
    + right. change (offsetOf im x y) with idx. split.
      * rewrite isPixelSurrounded_one in *. apply Z.leb_le in Hgate. apply Z.leb_le.
        pose proof (countAtOne_mono d0 d1 W H idx Hal Hcol). lia.
      * rewrite pixelAt_paint by lia. by eauto.
    + left. unfold getPixel. apply pixelAt_ext. intros k Hk. by apply Hsame.
Qed.

End Horror.

(** C6: for every image and every pixel that is not surrounded (at radius
    1) in it, the horror filter leaves the four bytes of that pixel as they
    are; a pixel of the output that differs from the input was surrounded in
    the input, and its alpha is 255. *)
Theorem horror_leaves_unsurrounded `{Host}
    (σ : World) (img : nat) (im : Bitmap) (filename : string) (x y : Z) :
  heap σ !! img = Some im -> wellFormed im ->
  0 <= x < width im -> 0 <= y < height im ->
  exists out,
    returned (processHorrorFilter img filename) σ = Some out
    /\ (isPixelSurrounded (data im) (width im) (height im) (offsetOf im x y) 1 = false ->
        getPixel out x y = getPixel im x y)
    /\ (getPixel out x y <> getPixel im x y ->
        isPixelSurrounded (data im) (width im) (height im) (offsetOf im x y) 1 = true
        /\ exists r g b, getPixel out x y = Some (r, g, b, 255)).
Proof.
  intros Hheld Hwf Hx Hy. exists (horrorBitmap im). split.
  - unfold returned. rewrite (processHorrorFilter_run σ img filename im Hheld).
    cbn [heap]. apply lookup_snoc.
  - destruct (horrorBitmap_pixel im Hwf x y Hx Hy) as [Same | [Gate Opaque]].
    + split; [done |]. intros Hne. by destruct Hne.
    + split; [| done]. intros Hfalse. congruence.
Qed.

Lemma horror_leaves_unsurrounded_witness :
  exists out,
    returned (@processHorrorFilter noArgument 0 "output/lonely-horror.png") (holding lonely)
    = Some out
    /\ (isPixelSurrounded (data lonely) (width lonely) (height lonely)
          (offsetOf lonely 1 1) 1 = false ->
        getPixel out 1 1 = getPixel lonely 1 1)
    /\ (getPixel out 1 1 <> getPixel lonely 1 1 ->
        isPixelSurrounded (data lonely) (width lonely) (height lonely)
          (offsetOf lonely 1 1) 1 = true
        /\ exists r g b, getPixel out 1 1 = Some (r, g, b, 255)).
Proof.
  apply (@horror_leaves_unsurrounded noArgument (holding lonely) 0%nat lonely);
    [reflexivity | apply lonely_wellFormed
    | vm_compute; split; congruence | vm_compute; split; congruence].
Defined.

(* ===================================================================== *)
(** * [composite]                                                         *)
(* ===================================================================== *)

Lemma NoDup_offsets_shifted (W x0 y0 w h : Z) :
  0 <= x0 -> x0 + w <= W ->
  NoDup ((fun '(x, y) => 4 * (W * (y0 + y) + (x0 + x))) <$> scanOrder 0 0 w h).
Proof.
  intros H0 HW. apply NoDup_fmap_2_strong; [| apply NoDup_scanOrder].
  intros [x1 y1] [x2 y2] H1 H2 Heq.
  apply elem_of_scanOrder in H1. apply elem_of_scanOrder in H2.
  assert (y1 = y2) by nia. subst. assert (x1 = x2) by lia. by subst.
Qed.

Section Composite.

Context `{Jimp}.

Variables (src base : Bitmap) (x y : Z).

(** Both images are well sized and [src], placed at [(x, y)], lies inside
    [base]. *)
Hypothesis srcSize : len (data src) = width src * height src * 4.
Hypothesis baseSize : len (data base) = width base * height base * 4.
Hypothesis inside :
  0 <= x /\ 0 <= y /\ 0 <= width src /\ 0 <= height src
  /\ x + width src <= width base /\ y + height src <= height base.

Let key (a : Z * Z) : Z := let '(sx, sy) := a in offsetOf base (x + sx) (y + sy).
Let step (a : Z * Z) (d : Buffer) : Buffer :=
  let '(sx, sy) := a in
  if (0 <=? x + sx) && (x + sx <? width base)
     && (0 <=? y + sy) && (y + sy <? height base)
  then
    let dstIdx := offsetOf base (x + sx) (y + sy) in
    match pixelAt (data src) (offsetOf src sx sy), pixelAt d dstIdx with
    | Some s, Some b => let '(r, g, b', a) := blend s b in paint d dstIdx r g b' a
    | _, _ => d
    end
  else d.

Lemma composite_frame a d j :
  ~ (key a <= j < key a + 4) -> read (step a d) j = read d j.
Proof.
  destruct a as [sx sy]. unfold step, key. intros Hj.
  destruct (_ && _); [| done].
  destruct (pixelAt (data src) _) as [s|]; [| done].
  destruct (pixelAt d _) as [b|]; [| done].
  destruct (blend s b) as [[[r g] b'] a]. by apply paint_frame.
Qed.

Lemma composite_len a d : len (step a d) = len d.
Proof.
  destruct a as [sx sy]. unfold step.
  destruct (_ && _); [| done].
  destruct (pixelAt (data src) _) as [s|]; [| done].
  destruct (pixelAt d _) as [b|]; [| done].
  destruct (blend s b) as [[[r g] b'] a]. apply len_paint.
Qed.

Lemma composite_bytes a d : bytes d -> bytes (step a d).
Proof.
  destruct a as [sx sy]. unfold step. intros Hb.
  destruct (_ && _); [| done].
  destruct (pixelAt (data src) _) as [s|]; [| done].
  destruct (pixelAt d _) as [b|]; [| done].
  destruct (blend s b) as [[[r g] b'] a]. by apply bytes_paint.
Qed.

Lemma composite_size :
  len (data (composite src x y base)) = width base * height base * 4.
Proof.
  rewrite <- baseSize. unfold composite, Buf.len. cbn [data]. f_equal.
  apply (run_invariant step (fun d => length d = length (data base))); [| done].
  intros a d' _ Hd.
  pose proof (composite_len a d') as Hl. unfold Buf.len in Hl. lia.
Qed.

Lemma composite_keeps_bytes :
  bytes (data base) -> bytes (data (composite src x y base)).
Proof.
  intros Hb. unfold composite. cbn [data].
  apply (run_invariant step bytes); [| done].
  intros a d' _. apply composite_bytes.
Qed.

(** The pixel of the result under the pixel [(sx, sy)] of [src] is the blend
    of that pixel with the pixel of [base] below it. *)
Lemma composite_pixel sx sy :
  0 <= sx < width src -> 0 <= sy < height src ->
  exists s b r g b' a,
    getPixel src sx sy = Some s
    /\ getPixel base (x + sx) (y + sy) = Some b
    /\ blend s b = (r, g, b', a)
    /\ getPixel (composite src x y base) (x + sx) (y + sy)
       = Some (r mod 256, g mod 256, b' mod 256, a mod 256).
Proof.
  intros Hsx Hsy.
  destruct inside as (Hx & Hy & Hws & Hhs & Hxw & Hyh).
  assert (Ha : (sx, sy) ∈ scanOrder 0 0 (width src) (height src))
    by (apply elem_of_scanOrder; lia).
  assert (Hkey : forall a, a ∈ scanOrder 0 0 (width src) (height src) ->
                 key a mod 4 = 0 /\ 0 <= key a /\ key a + 3 < len (data base)).
  { intros [sx' sy'] Ha'. apply elem_of_scanOrder in Ha'.
    unfold key, offsetOf. split; [| nia].
    rewrite Z.mul_comm. apply Z.mod_mul. lia. }
  destruct (Hkey _ Ha) as (_ & K0 & K3).
  destruct (run_at key step composite_frame (fun d => len d = len (data base))
              (scanOrder 0 0 (width src) (height src)) (sx, sy) (data base))
    as (d1 & Hlen & Hsame & Hres).
  - done.
  - unfold key, offsetOf. by apply NoDup_offsets_shifted.
  - intros a' Ha'. by apply Hkey.
  - intros a' d' _ Hd'. by rewrite composite_len.
  - done.
  - destruct (pixelAt_is_Some (data src) (offsetOf src sx sy)) as [s Hs];
      [unfold offsetOf; nia .. |].
    destruct (pixelAt_is_Some (data base) (key (sx, sy))) as [b Hb]; [done .. |].
    assert (Hb1 : pixelAt d1 (key (sx, sy)) = Some b).
    { rewrite <- Hb. by apply pixelAt_ext. }
    destruct (blend s b) as [[[r g] b'] a] eqn:Eblend.
    exists s, b, r, g, b', a. split; [done |]. split; [done |]. split; [done |].
    unfold getPixel.
    change (offsetOf (composite src x y base) (x + sx) (y + sy)) with (key (sx, sy)).
    rewrite (pixelAt_ext (step (sx, sy) d1) _ (key (sx, sy)) (key (sx, sy)))
      by (intros k Hk; unfold composite; cbn [data]; by apply Hres).
    unfold step. unfold key in *.
    destruct (Z.leb_spec 0 (x + sx)); [| lia].
    destruct (Z.ltb_spec (x + sx) (width base)); [| lia].
    destruct (Z.leb_spec 0 (y + sy)); [| lia].
    destruct (Z.ltb_spec (y + sy) (height base)); [| lia].
    cbn [andb]. rewrite Hs, Hb1, Eblend.
    apply pixelAt_paint; lia.
Qed.

End Composite.

(** *** Jimp's blend on opaque pixels *)

(** A check of all pairs of bytes. *)
Lemma forallb_bytes (P : Z -> Z -> bool) :
  forallb (fun a => forallb (P a) (seqZ 0 256)) (seqZ 0 256) = true ->
  forall a b, 0 <= a < 256 -> 0 <= b < 256 -> P a b = true.
Proof.
  intros Hall a b Ha Hb.
  assert (Hin : forall k, 0 <= k < 256 -> In k (seqZ 0 256)).
  { intros k Hk. apply list_elem_of_In, elem_of_seqZ. lia. }
  pose proof (proj1 (List.forallb_forall _ _) Hall a (Hin a Ha)) as Hrow.
  exact (proj1 (List.forallb_forall _ _) Hrow b (Hin b Hb)).
Qed.

(** Over an opaque pixel an opaque source is stored as it is: in double
    precision [a] is exactly 1 and [c / 255 * 255] is [c] for every byte. *)
Lemma blendColour_opaque (sc dc : Z) :
  0 <= sc < 256 -> 0 <= dc < 256 -> Double.blendColour sc 255 dc 255 = sc.
Proof.
  intros Hs Hd. apply Z.eqb_eq.
  apply (forallb_bytes (fun sc dc => Double.blendColour sc 255 dc 255 =? sc));
    [vm_compute; reflexivity | done | done].
Qed.

Lemma blend_opaque (s d : Pixel) :
  (let '(r, g, b, a) := s in
   0 <= r < 256 /\ 0 <= g < 256 /\ 0 <= b < 256 /\ 0 <= a < 256) ->
  (let '(r, g, b, a) := d in
   0 <= r < 256 /\ 0 <= g < 256 /\ 0 <= b < 256 /\ 0 <= a < 256) ->
  alpha s = 255 -> alpha d = 255 -> Double.blend s d = s.
Proof.
  destruct s as [[[sr sg] sb] sa], d as [[[dr dg] db] da].
  intros (Sr & Sg & Sb & _) (Dr & Dg & Db & _). unfold alpha. cbn [snd].
  intros -> ->. unfold Double.blend.
  rewrite !blendColour_opaque by done.
  by replace (Double.blendAlpha 255 255) with 255 by (by vm_compute).
Qed.

(** Over an opaque pixel a source that is opaque or fully transparent
    leaves the alpha at 255. *)
Lemma blendAlpha_opaque (sa : Z) :
  sa = 0 \/ sa = 255 -> Double.blendAlpha sa 255 = 255.
Proof. by intros [-> | ->]; vm_compute. Qed.

(** Elsewhere the rounding shows: [5/255 + 1 - 5/255] is below 1, and the
    quotients of a half-transparent pixel over itself fall short of 10 and
    20. *)
Example blend_rounds :
  Double.blend (255, 0, 0, 255) (240, 230, 220, 5) = (255, 0, 0, 254)
  /\ Double.blend (200, 10, 20, 128) (200, 10, 20, 128) = (200, 9, 19, 191)
  /\ Double.blend (0, 0, 0, 0) (0, 0, 0, 0) = (0, 0, 0, 0).
Proof. by vm_compute. Qed.

Section CompositeDouble.

Variable convolute : list (list Z) -> Bitmap -> Bitmap.

Variables (src base : Bitmap) (sx sy : Z).

Hypothesis srcSize : len (data src) = width src * height src * 4.
Hypothesis srcBytes : bytes (data src).
Hypothesis baseSize : len (data base) = width base * height base * 4.
Hypothesis baseBytes : bytes (data base).
Hypothesis fits : 0 <= width src <= width base /\ 0 <= height src <= height base.
Hypothesis inside : 0 <= sx < width src /\ 0 <= sy < height src.
Hypothesis baseOpaque : alpha <$> getPixel base sx sy = Some 255.

(** An opaque pixel of the source over an opaque pixel of the base is what
    shows. *)
Lemma composite_opaque (px : Pixel) :
  getPixel src sx sy = Some px -> alpha px = 255 ->
  getPixel (@composite (doubleJimp convolute) src 0 0 base) sx sy = Some px.
Proof.
  intros Hpx Halpha.
  destruct (@composite_pixel (doubleJimp convolute) src base 0 0 srcSize baseSize
              ltac:(lia) sx sy ltac:(lia) ltac:(lia))
    as (s & b & r & g & b' & a & Es & Eb & Eblend & Eres).
  rewrite !Z.add_0_l in Eres, Eb. rewrite Eres.
  rewrite Hpx in Es. injection Es as <-.
  rewrite Eb in baseOpaque. injection baseOpaque as Hb.
  pose proof (pixelAt_bytes (data src) _ px srcBytes Hpx) as Bs.
  pose proof (pixelAt_bytes (data base) _ b baseBytes Eb) as Bb.
  cbn [blend doubleJimp] in Eblend.
  rewrite (blend_opaque px b Bs Bb Halpha Hb) in Eblend. subst px.
  destruct Bs as (Br & Bg & Bb' & Ba).
  by rewrite !Z.mod_small by lia.
Qed.

(** Under a pixel of the source that is opaque or fully transparent the
    base stays opaque. *)
Lemma composite_stays_opaque (px : Pixel) :
  getPixel src sx sy = Some px -> alpha px = 0 \/ alpha px = 255 ->
  alpha <$> getPixel (@composite (doubleJimp convolute) src 0 0 base) sx sy = Some 255.
Proof.
  intros Hpx Halpha.
  destruct (@composite_pixel (doubleJimp convolute) src base 0 0 srcSize baseSize
              ltac:(lia) sx sy ltac:(lia) ltac:(lia))
    as (s & b & r & g & b' & a & Es & Eb & Eblend & Eres).
  rewrite !Z.add_0_l in Eres, Eb. rewrite Eres.
  rewrite Hpx in Es. injection Es as <-.
  rewrite Eb in baseOpaque. injection baseOpaque as Hb.
  destruct px as [[[sr sg] sb] sa], b as [[[dr dg] db] da].
  unfold alpha in *. cbn [snd] in *. subst da.
  cbn [blend doubleJimp Double.blend] in Eblend.
  injection Eblend as _ _ _ <-.
  cbn [fmap option_fmap option_map snd]. f_equal.
  by rewrite blendAlpha_opaque.
Qed.

End CompositeDouble.

(* ===================================================================== *)
(** * The callback of [loadFolder], run on a decoded image                *)
(* ===================================================================== *)

Lemma log_run (σ : World) (line : string) :
  log line σ
  = (Done (),
     {| heap := heap σ; console := console σ ++ [line]; disk := disk σ |}).
Proof. reflexivity. Qed.

(** Finding an object in a heap that has grown since it was allocated. *)
Ltac heap_lookup :=
  cbn [heap];
  repeat first [ eassumption | apply lookup_snoc | apply lookup_app_l_Some ].

Ltac run_in lem :=
  erewrite bind_done; [| eapply lem; heap_lookup];
  cbn [heap console disk]; rewrite ?insert_snoc.

Section Convolutions.

Context `{Host, Jimp}.

Variables (σ : World) (img : nat) (filename : string) (im : Bitmap).

Hypothesis held : heap σ !! img = Some im.

Lemma processEdgeDetect_run :
  processEdgeDetect img filename σ
  = (Done (),
     {| heap := heap σ ++ [convolute [[1; 1; 1]; [1; -8; 1]; [1; 1; 1]] im];
        console := console σ
          ++ [getCurrentTime +:+ "> Edge detection image saved as <" +:+ filename +:+ ">."];
        disk := disk σ
          ++ [(filename, convolute [[1; 1; 1]; [1; -8; 1]; [1; 1; 1]] im)] |}).
Proof.
  unfold processEdgeDetect.
  run_in clone_run. run_in convoluteIn_run. run_in writeFile_run. reflexivity.
Qed.

Lemma processSharpen_run :
  processSharpen img filename σ
  = (Done (),
     {| heap := heap σ ++ [convolute [[0; -1; 0]; [-1; 5; -1]; [0; -1; 0]] im];
        console := console σ
          ++ [getCurrentTime +:+ "> Sharpen image saved as <" +:+ filename +:+ ">."];
        disk := disk σ
          ++ [(filename, convolute [[0; -1; 0]; [-1; 5; -1]; [0; -1; 0]] im)] |}).
Proof.
  unfold processSharpen.
  run_in clone_run. run_in convoluteIn_run. run_in writeFile_run. reflexivity.
Qed.

End Convolutions.

Section CompositeStage.

Context `{Host, Jimp}.

Variables (σ : World) (originalImage redImage greenImage blueImage : nat)
          (name : string) (original red blue : Bitmap).

Hypothesis heldOriginal : heap σ !! originalImage = Some original.
Hypothesis heldRed : heap σ !! redImage = Some red.
Hypothesis heldBlue : heap σ !! blueImage = Some blue.
Hypothesis redApart : originalImage <> redImage.
Hypothesis blueApart : originalImage <> blueImage.

(** The stage replaces the bitmap of [originalImage] by the cropped layers
    and writes it; the green image plays no part. *)
Lemma compositeStage_run out :
  compositeBitmap original red blue = Some out ->
  compositeStage originalImage redImage greenImage blueImage name σ
  = (Done (),
     {| heap := <[originalImage := out]> (heap σ);
        console := console σ
          ++ [getCurrentTime +:+ "> All images R G B filtered out.  Producing composite images...";
              getCurrentTime +:+ "> Composite image produced as <" +:+ OUTPUT_DIR +:+ "/" +:+ name +:+ "-composite.png>."];
        disk := disk σ
          ++ [(OUTPUT_DIR +:+ "/" +:+ name +:+ "-composite.png", out)] |}).
Proof.
  intros Hout. unfold compositeStage, compositeBitmap in *.
  assert (Hlt : (originalImage < length (heap σ))%nat)
    by (by eapply lookup_lt_Some).
  erewrite bind_done; [| apply log_run]. cbn [heap console disk].
  erewrite bind_done; [| eapply compositeIn_run; cbn [heap]; eassumption].
  cbn [heap console disk].
  erewrite bind_done;
    [| eapply compositeIn_run; cbn [heap];
       [ rewrite list_lookup_insert_ne by done; eassumption
       | by apply list_lookup_insert_eq ] ].
  cbn [heap console disk]. rewrite list_insert_insert_eq.
  erewrite bind_done;
    [| eapply bitmap_run; cbn [heap]; by apply list_lookup_insert_eq ].
  erewrite bind_done;
    [| eapply cropIn_run; cbn [heap];
       [ by apply list_lookup_insert_eq | exact Hout ] ].
  cbn [heap console disk]. rewrite list_insert_insert_eq.
  erewrite bind_done;
    [| eapply writeFile_run; cbn [heap]; by apply list_lookup_insert_eq ].
  rewrite log_run. cbn [heap console disk]. by rewrite <- app_assoc.
Qed.

End CompositeStage.

Section OnImage.

Context `{Host, Jimp}.

Variables (σ : World) (image : nat) (name : string) (im : Bitmap).

Hypothesis held : heap σ !! image = Some im.

(** The whole callback, when the three crops fit: seven Jimp objects are
    created and seven files written; the decoded image is left alone. *)
Lemma onImage_run red green blue out :
  redBitmap im = Some red -> greenBitmap im = Some green ->
  blueBitmap im = Some blue -> compositeBitmap im red blue = Some out ->
  exists lines,
    onImage image name σ
    = (Done (),
       {| heap := heap σ
            ++ [out;
                convolute [[1; 1; 1]; [1; -8; 1]; [1; 1; 1]] im;
                convolute [[0; -1; 0]; [-1; 5; -1]; [0; -1; 0]] im;
                horrorBitmap im; red; green; blue];
          console := console σ ++ lines;
          disk := disk σ
            ++ [(OUTPUT_DIR +:+ "/" +:+ name +:+ "-ed.png",
                 convolute [[1; 1; 1]; [1; -8; 1]; [1; 1; 1]] im);
                (OUTPUT_DIR +:+ "/" +:+ name +:+ "-sharpen.png",
                 convolute [[0; -1; 0]; [-1; 5; -1]; [0; -1; 0]] im);
                (OUTPUT_DIR +:+ "/" +:+ name +:+ "-horror.png", horrorBitmap im);
                (OUTPUT_DIR +:+ "/" +:+ name +:+ "-red.png", red);
                (OUTPUT_DIR +:+ "/" +:+ name +:+ "-green.png", green);
                (OUTPUT_DIR +:+ "/" +:+ name +:+ "-blue.png", blue);
                (OUTPUT_DIR +:+ "/" +:+ name +:+ "-composite.png", out)] |}).
Proof.
  intros Hred Hgreen Hblue Hout. eexists. unfold onImage.
  run_in bitmap_run.
  erewrite bind_done; [| apply log_run]. cbn [heap console disk].
  run_in clone_run.
  run_in processEdgeDetect_run.
  run_in processSharpen_run.
  run_in processHorrorFilter_run.
  erewrite bind_done; [| eapply processRedImage_run; [heap_lookup | exact Hred]].
  cbn [heap console disk].
  erewrite bind_done; [| eapply processGreenImage_run; [heap_lookup | exact Hgreen]].
  cbn [heap console disk].
  erewrite bind_done; [| eapply processBlueImage_run; [heap_lookup | exact Hblue]].
  cbn [heap console disk].
  erewrite compositeStage_run; [| heap_lookup .. | exact Hout];
    [| rewrite !length_app; cbn [length]; lia ..].
  cbn [heap console disk].
  rewrite <- !app_assoc. cbn [app].
  rewrite insert_app_r_alt by done. rewrite Nat.sub_diag. cbn [insert list_insert].
  reflexivity.
Qed.

End OnImage.

(* ===================================================================== *)
(** * The compositor                                                      *)
(* ===================================================================== *)

(** A highlighter's output is a well-formed image, 50 pixels narrower than
    its input. *)
Lemma cropped_scan_wellFormed (im : Bitmap) (r g b x0 : Z) (out : Bitmap) :
  wellFormed im -> 50 <= width im -> 0 <= x0 <= 50 ->
  crop x0 0 (width im - X_OFFSET) (height im) (highlightScan r g b im) = Some out ->
  wellFormed out /\ width out = width im - 50 /\ height out = height im.
Proof.
  intros Hwf Hwide Hx0 Hcrop.
  pose proof (highlightScan_wellFormed r g b im Hwf) as (HW & HH & Hlen & Hb).
  destruct (crop_spec x0 0 (width im - X_OFFSET) (height im) (highlightScan r g b im))
    as (out' & Hcrop' & Hw & Hh & Hl & Hbytes & _).
  - unfold X_OFFSET, highlightScan, scan in *. cbn [width height] in *. lia.
  - exact Hlen.
  - rewrite Hcrop in Hcrop'. injection Hcrop' as <-.
    unfold X_OFFSET, highlightScan, scan in *. cbn [width height] in *.
    repeat split; try lia; auto.
Qed.

Section Compositor.

Context `{Host} `{J : Jimp}.

Variables (im red blue : Bitmap).

Hypothesis wf : wellFormed im.
Hypothesis wideEnough : 50 <= width im.
Hypothesis wfRed : wellFormed red.
Hypothesis wfBlue : wellFormed blue.
Hypothesis sizeRed : width red = width im - 50 /\ height red = height im.
Hypothesis sizeBlue : width blue = width im - 50 /\ height blue = height im.

Let layered : Bitmap := composite red 0 0 (composite blue 0 0 im).

Lemma layered_size : len (data layered) = width im * height im * 4.
Proof.
  destruct wf as (HW & HH & Hlen & _).
  destruct wfRed as (_ & _ & HlenR & _). destruct wfBlue as (_ & _ & HlenB & _).
  unfold layered.
  assert (Hinner : len (data (composite blue 0 0 im)) = width im * height im * 4)
    by (by apply composite_size).
  by rewrite composite_size.
Qed.

(** Layers and crop, from the three images. *)
Lemma compositeBitmap_spec :
  exists out,
    compositeBitmap im red blue = Some out
    /\ width out = width im - 50 /\ height out = height im
    /\ forall x y, 0 <= x < width im - 50 -> 0 <= y < height im ->
         getPixel out x y = getPixel layered x y.
Proof.
  destruct wf as (HW & HH & Hlen & _).
  destruct (crop_spec 0 0 (width im - 50) (height im) layered)
    as (out & Hcrop & Hw & Hh & _ & _ & Hpx).
  - cbn [width height layered composite]. lia.
  - apply layered_size.
  - exists out. split; [exact Hcrop |]. split; [done |]. split; [done |].
    intros x y Hx Hy. by rewrite Hpx by lia.
Qed.

End Compositor.

(** The Blue result is opaque or fully transparent wherever the pixel of the
    input that it shows is opaque. *)
Lemma blue_opaque_or_transparent (im blue : Bitmap) (x y : Z) :
  wellFormed im -> 50 <= width im ->
  crop 50 0 (width im - X_OFFSET) (height im) (highlightScan 0 0 255 im) = Some blue ->
  0 <= x < width im - 50 -> 0 <= y < height im ->
  alpha <$> getPixel im (50 + x) y = Some 255 ->
  exists px, getPixel blue x y = Some px /\ (alpha px = 0 \/ alpha px = 255).
Proof.
  intros Hwf Hwide Hcrop Hx Hy Hsrc.
  destruct (cropped_scan im Hwf Hwide 0 0 255 50) as (blue' & Hcrop' & _ & _ & Hpx);
    [lia |].
  rewrite Hcrop in Hcrop'. injection Hcrop' as <-.
  rewrite Hpx by done.
  assert (Hvivid : 100 < 0 mod 256 \/ 100 < 0 mod 256 \/ 100 < 255 mod 256)
    by (right; right; reflexivity).
  rewrite (highlightScan_pixel 0 0 255 im Hwf Hvivid) by lia.
  destruct (isPixelColored _ _); [destruct (isPixelSurrounded _ _ _ _ _) |].
  - eexists. split; [reflexivity |]. by right.
  - destruct (getPixel im (50 + x) y) as [px |]; [| done].
    exists px. split; [done |]. right. by injection Hsrc.
  - eexists. split; [reflexivity |]. by left.
Qed.


Lemma twoCrosses_wellFormed : wellFormed twoCrosses.
Proof.
  repeat split; try (vm_compute; congruence).
  unfold bytes. apply Forall_forall. intros b Hb.
  apply list_elem_of_In in Hb. vm_compute in Hb.
  repeat (destruct Hb as [<- | Hb]; [lia |]). destruct Hb.
Qed.

Lemma faintCross_wellFormed : wellFormed faintCross.
Proof.
  repeat split; try (vm_compute; congruence).
  unfold bytes. apply Forall_forall. intros b Hb.
  apply list_elem_of_In in Hb. vm_compute in Hb.
  repeat (destruct Hb as [<- | Hb]; [lia |]). destruct Hb.
Qed.



(** Where the crosses are opaque, red shows over blue. *)
Example red_over_blue_on_crosses :
  exists red blue out,
    redBitmap twoCrosses = Some red /\ blueBitmap twoCrosses = Some blue
    /\ @compositeBitmap (doubleJimp convolute3) twoCrosses red blue = Some out
    /\ getPixel twoCrosses 1 1 = Some (240, 230, 220, 255)
    /\ getPixel blue 1 1 = Some (0, 0, 255, 255)
    /\ getPixel red 1 1 = Some (255, 0, 0, 255)
    /\ getPixel out 1 1 = Some (255, 0, 0, 255)
    /\ getPixel out 0 0 = Some (0, 0, 0, 0)
    /\ getPixel red 0 1 = Some (240, 230, 220, 255).
Proof.
  eexists _, _, _.
  split; [by vm_compute |]. split; [by vm_compute |]. split; [by vm_compute |].
  by vm_compute.
Qed.

(* ===================================================================== *)
(** * What the composite stage reads                                      *)
(* ===================================================================== *)

Section Untouched.

Variables (g : nat) (green' : Bitmap).

(** The program [m] never looks at the object [g]: run with another bitmap
    there, it does the same, and leaves that bitmap there. *)
Let blind {A} (m : M A) : Prop :=
  forall σ, m (withBitmap g green' σ)
            = (fst (m σ), withBitmap g green' (snd (m σ))).

Lemma blind_bind {A B} (m : M A) (k : A -> M B) :
  blind m -> (forall a, blind (k a)) -> blind (m ≫= k).
Proof.
  intros Hm Hk σ. unfold mbind, M_bind. rewrite Hm.
  destruct (m σ) as [[a | e] σ1]; cbn [fst snd]; [apply Hk | done].
Qed.

Lemma blind_log line : blind (log line).
Proof. intros σ. reflexivity. Qed.

Lemma blind_throw {A} e : blind (@throw A e).
Proof. intros σ. reflexivity. Qed.

Lemma blind_save filename bm : blind (save filename bm).
Proof. intros σ. reflexivity. Qed.

Lemma blind_bitmap image : image <> g -> blind (bitmap image).
Proof.
  intros Hne σ. unfold bitmap, withBitmap. cbn [heap].
  rewrite list_lookup_insert_ne by done.
  by destruct (heap σ !! image).
Qed.

Lemma blind_setBitmap image bm : image <> g -> blind (setBitmap image bm).
Proof.
  intros Hne σ. unfold setBitmap, withBitmap. cbn [heap console disk fst snd].
  by rewrite list_insert_insert_ne.
Qed.

Lemma blind_compositeIn `{Jimp} base src x y :
  base <> g -> src <> g -> blind (compositeIn base src x y).
Proof.
  intros Hb Hs. unfold compositeIn.
  apply blind_bind; [by apply blind_bitmap |]. intros s.
  apply blind_bind; [by apply blind_bitmap |]. intros b.
  by apply blind_setBitmap.
Qed.

Lemma blind_cropIn image x y w h : image <> g -> blind (cropIn image x y w h).
Proof.
  intros Hne. unfold cropIn.
  apply blind_bind; [by apply blind_bitmap |]. intros bm.
  destruct (crop x y w h bm); [by apply blind_setBitmap | apply blind_throw].
Qed.

Lemma blind_writeFile image filename : image <> g -> blind (writeFile image filename).
Proof.
  intros Hne. unfold writeFile.
  apply blind_bind; [by apply blind_bitmap |]. intros bm. apply blind_save.
Qed.

Lemma blind_compositeStage `{Host, Jimp} o r b name :
  o <> g -> r <> g -> b <> g -> blind (compositeStage o r g b name).
Proof.
  intros Ho Hr Hb. unfold compositeStage.
  apply blind_bind; [apply blind_log |]. intros _.
  apply blind_bind; [by apply blind_compositeIn |]. intros _.
  apply blind_bind; [by apply blind_compositeIn |]. intros _.
  apply blind_bind; [by apply blind_bitmap |]. intros bm.
  apply blind_bind; [by apply blind_cropIn |]. intros _.
  apply blind_bind; [by apply blind_writeFile |]. intros _.
  apply blind_log.
Qed.

End Untouched.

(** C5 (amended): the Red and Blue highlight results feed into the
    compositor along with the original; the Green highlight result does
    not.  Whatever bitmap the green object holds, the composite stage prints
    the same lines, writes the same file and leaves the same bitmaps in the
    other objects; changing the red result, or the blue one, can change the
    file written. *)
Theorem compositor_ignores_green :
  (forall (H : Host) (J : Jimp) (σ : World) (o r g b : nat) (name : string)
          (green' : Bitmap),
      o <> g -> r <> g -> b <> g ->
      compositeStage o r g b name (withBitmap g green' σ)
      = (fst (compositeStage o r g b name σ),
         withBitmap g green' (snd (compositeStage o r g b name σ))))
  /\ disk (snd (@compositeStage noArgument exactJimp 0 1 2 3 "a"
                  (withBitmap 1 (dot 9 9 9 255) layers)))
     <> disk (snd (@compositeStage noArgument exactJimp 0 1 2 3 "a" layers))
  /\ disk (snd (@compositeStage noArgument exactJimp 0 1 2 3 "a"
                  (withBitmap 3 (dot 0 90 0 255) (withBitmap 1 (dot 0 0 0 0) layers))))
     <> disk (snd (@compositeStage noArgument exactJimp 0 1 2 3 "a"
                     (withBitmap 1 (dot 0 0 0 0) layers))).
Proof.
  split; [| split].
  - intros H J σ o r g b name green' Ho Hr Hb. by apply blind_compositeStage.
  - vm_compute. intros E. discriminate E.
  - vm_compute. intros E. discriminate E.
Qed.

(** C5, as stated, fails: there is no world, and no change of the green
    result, for which the composite stage writes something else. *)
Lemma compositor_never_reads_green :
  ~ (exists (H : Host) (J : Jimp) (σ : World) (o r g b : nat) (name : string)
            (green' : Bitmap),
        o <> g /\ r <> g /\ b <> g
        /\ disk (snd (compositeStage o r g b name (withBitmap g green' σ)))
           <> disk (snd (compositeStage o r g b name σ))).
Proof.
  intros (H & J & σ & o & r & g & b & name & green' & Ho & Hr & Hb & Hne).
  apply Hne. by rewrite (blind_compositeStage g green' o r b name Ho Hr Hb σ).
Qed.

(* ===================================================================== *)
(** * The filters and their input                                         *)
(* ===================================================================== *)

Section Frame.

Context `{Host, Jimp}.

Variables (img : nat) (filename : string).

Lemma clone_thrown σ :
  heap σ !! img = None -> clone img σ = (Thrown "TypeError", σ).
Proof.
  intros E. unfold clone. erewrite bind_thrown; [done |]. unfold bitmap. by rewrite E.
Qed.

(** A highlighter whose crop does not fit raises after the scan; its clone
    stays behind, the input is as it was. *)
Lemma processRedImage_thrown σ im :
  heap σ !! img = Some im -> redBitmap im = None ->
  processRedImage img filename σ
  = (Thrown "RangeError",
     {| heap := heap σ ++ [highlightScan 255 0 0 im];
        console := console σ; disk := disk σ |}).
Proof.
  intros Hheld Hnone. unfold processRedImage, redBitmap in *.
  run_in clone_run. run_in bitmap_run. run_in scanIn_run. run_in bitmap_run.
  erewrite bind_thrown; [done |].
  eapply cropIn_thrown; [heap_lookup | exact Hnone].
Qed.

Lemma processGreenImage_thrown σ im :
  heap σ !! img = Some im -> greenBitmap im = None ->
  processGreenImage img filename σ
  = (Thrown "RangeError",
     {| heap := heap σ ++ [highlightScan 0 255 0 im];
        console := console σ; disk := disk σ |}).
Proof.
  intros Hheld Hnone. unfold processGreenImage, greenBitmap in *.
  run_in clone_run. run_in bitmap_run. run_in scanIn_run. run_in bitmap_run.
  erewrite bind_thrown; [done |].
  eapply cropIn_thrown; [heap_lookup | exact Hnone].
Qed.

Lemma processBlueImage_thrown σ im :
  heap σ !! img = Some im -> blueBitmap im = None ->
  processBlueImage img filename σ
  = (Thrown "RangeError",
     {| heap := heap σ ++ [highlightScan 0 0 255 im];
        console := console σ; disk := disk σ |}).
Proof.
  intros Hheld Hnone. unfold processBlueImage, blueBitmap in *.
  run_in clone_run. run_in bitmap_run. run_in scanIn_run. run_in bitmap_run.
  erewrite bind_thrown; [done |].
  eapply cropIn_thrown; [heap_lookup | exact Hnone].
Qed.

(** Whatever the filter and however it ends, the objects that existed
    before the call hold the bitmaps they held; the filter has at most added
    one object, its clone. *)
Lemma runFilter_extends (f : Filter) σ :
  heap σ `prefix_of` heap (snd (runFilter f img filename σ)).
Proof.
  destruct (heap σ !! img) as [im|] eqn:Hheld.
  - destruct f; unfold runFilter.
    + rewrite (processEdgeDetect_run σ img filename im Hheld). by eexists.
    + rewrite (processSharpen_run σ img filename im Hheld). by eexists.
    + rewrite (bind_done _ _ _ _ _ (processHorrorFilter_run σ img filename im Hheld)).
      by eexists.
    + destruct (redBitmap im) as [red|] eqn:E.
      * rewrite (bind_done _ _ _ _ _ (processRedImage_run σ img filename im Hheld red E)).
        by eexists.
      * rewrite (bind_thrown _ _ _ _ _ (processRedImage_thrown σ im Hheld E)).
        by eexists.
    + destruct (greenBitmap im) as [green|] eqn:E.
      * rewrite (bind_done _ _ _ _ _ (processGreenImage_run σ img filename im Hheld green E)).
        by eexists.
      * rewrite (bind_thrown _ _ _ _ _ (processGreenImage_thrown σ im Hheld E)).
        by eexists.
    + destruct (blueBitmap im) as [blue|] eqn:E.
      * rewrite (bind_done _ _ _ _ _ (processBlueImage_run σ img filename im Hheld blue E)).
        by eexists.
      * rewrite (bind_thrown _ _ _ _ _ (processBlueImage_thrown σ im Hheld E)).
        by eexists.
  - pose proof (clone_thrown σ Hheld) as Hc.
    destruct f; unfold runFilter, processEdgeDetect, processSharpen,
      processHorrorFilter, processRedImage, processGreenImage, processBlueImage.
    + rewrite (bind_thrown _ _ _ _ _ Hc). cbn [snd]. reflexivity.
    + rewrite (bind_thrown _ _ _ _ _ Hc). cbn [snd]. reflexivity.
    + rewrite (bind_thrown _ _ _ _ _ (bind_thrown _ _ _ _ _ Hc)). cbn [snd]. reflexivity.
    + rewrite (bind_thrown _ _ _ _ _ (bind_thrown _ _ _ _ _ Hc)). cbn [snd]. reflexivity.
    + rewrite (bind_thrown _ _ _ _ _ (bind_thrown _ _ _ _ _ Hc)). cbn [snd]. reflexivity.
    + rewrite (bind_thrown _ _ _ _ _ (bind_thrown _ _ _ _ _ Hc)). cbn [snd]. reflexivity.
Qed.

End Frame.

Lemma runFilters_extends `{Host, Jimp} (fs : list (Filter * string)) (img : nat) σ :
  heap σ `prefix_of` heap (snd (runFilters fs img σ)).
Proof.
  revert σ. induction fs as [| [f fn] fs IH]; intros σ; [cbn; reflexivity |].
  unfold runFilters in *. cbn [forEach]. unfold mbind at 1, M_bind at 1.
  pose proof (runFilter_extends img fn f σ) as Hf.
  destruct (runFilter f img fn σ) as [[[] | e] σ1]; cbn [snd] in *.
  - etransitivity; [exact Hf | apply IH].
  - exact Hf.
Qed.

(** C7: every filter operation (edge detect, sharpen, horror, the three
    channel highlighters) leaves the image passed to it as it was, pixel
    data included: it works on a clone, a new object, and after the call
    every object that existed before holds the bitmap it held.  So when
    filters are run one after the other on the same decoded image, in any
    number and order, each of them finds the original bitmap in it. *)
Theorem filters_leave_input `{Host, Jimp}
    (fs : list (Filter * string)) (img : nat) (σ : World) :
  heap σ `prefix_of` heap (snd (runFilters fs img σ))
  /\ (forall im, heap σ !! img = Some im ->
        heap (snd (runFilters fs img σ)) !! img = Some im)
  /\ (forall fs1 f filename fs2 im,
        fs = fs1 ++ (f, filename) :: fs2 ->
        heap σ !! img = Some im ->
        heap (snd (runFilters fs1 img σ)) !! img = Some im
        /\ heap (snd (runFilter f img filename (snd (runFilters fs1 img σ)))) !! img
           = Some im).
Proof.
  assert (Hkeep : forall l im, heap σ !! img = Some im ->
                  heap (snd (runFilters l img σ)) !! img = Some im).
  { intros l im Him. destruct (runFilters_extends l img σ) as [fresh ->].
    by apply lookup_app_l_Some. }
  split; [apply runFilters_extends |]. split; [apply Hkeep |].
  intros fs1 f filename fs2 im _ Him. split; [by apply Hkeep |].
  destruct (runFilter_extends img filename f (snd (runFilters fs1 img σ)))
    as [fresh ->].
  apply lookup_app_l_Some. by apply Hkeep.
Qed.

Lemma filters_leave_input_witness :
  heap (holding lonely)
    `prefix_of` heap (snd (@runFilters noArgument exactJimp allSix 0 (holding lonely)))
  /\ heap (snd (@runFilters noArgument exactJimp allSix 0 (holding lonely))) !! 0%nat
     = Some lonely.
Proof.
  pose proof (@filters_leave_input noArgument exactJimp allSix 0%nat (holding lonely))
    as (Hprefix & Hkeep & _).
  split; [exact Hprefix | apply Hkeep; reflexivity].
Defined.

(* ===================================================================== *)
(** * Starting the program                                                *)
(* ===================================================================== *)

Lemma errorHandle_run (args : list string) (σ : World) :
  errorHandle args σ
  = (Done (),
     {| heap := heap σ;
        console := console σ
          ++ ["Error loading from folder.";
              if (3 <=? length args)%nat
              then "Folder not found or could not be read."
              else "No folder name found; check arguments."];
        disk := disk σ |}).
Proof.
  unfold errorHandle. erewrite bind_done; [| apply log_run].
  destruct (3 <=? length args)%nat; rewrite log_run; cbn [heap console disk];
    by rewrite <- app_assoc.
Qed.

(** C8 (amended): if no folder argument is supplied, or one is supplied but
    the path does not exist, the program processes no image (no object is
    created, no file written) and prints two lines: the line "Error loading
    from folder.", the same in both cases, and then one line that tells the
    case with no argument from the case of a path not found. *)
Theorem startup_errors `{H : Host, J : Jimp} (σ : World) :
  ((length argv < 3)%nat ->
   main σ
   = (Done (),
      {| heap := heap σ;
         console := console σ
           ++ ["Error loading from folder.";
               "No folder name found; check arguments."];
         disk := disk σ |}))
  /\ (forall folder, argv !! 2%nat = Some folder -> existsSync folder = false ->
      main σ
      = (Done (),
         {| heap := heap σ;
            console := console σ
              ++ ["Error loading from folder.";
                  "Folder not found or could not be read."];
            disk := disk σ |})).
Proof.
  split.
  - intros Hlen. unfold main.
    destruct (Nat.leb_spec 3 (length argv)) as [Hge | _]; [lia |].
    cbn [andb]. rewrite errorHandle_run.
    destruct (Nat.leb_spec 3 (length argv)) as [Hge | _]; [lia | done].
  - intros folder Harg Hmissing. unfold main.
    assert (Hlen : (2 < length argv)%nat) by (by eapply lookup_lt_Some).
    destruct (Nat.leb_spec 3 (length argv)) as [_ | Hlt]; [| lia].
    rewrite Harg. cbn [default from_option id andb]. rewrite Hmissing.
    rewrite errorHandle_run.
    destruct (Nat.leb_spec 3 (length argv)) as [_ | Hlt]; [done | lia].
Qed.

Lemma startup_errors_witness :
  @main noArgument exactJimp start
  = (Done (),
     {| heap := []; console := ["Error loading from folder.";
                                "No folder name found; check arguments."];
        disk := [] |})
  /\ @main missingFolder exactJimp start
     = (Done (),
        {| heap := []; console := ["Error loading from folder.";
                                   "Folder not found or could not be read."];
           disk := [] |}).
Proof.
  split.
  - apply (proj1 (@startup_errors noArgument exactJimp start)). cbn. lia.
  - apply (proj2 (@startup_errors missingFolder exactJimp start) "pictures");
      reflexivity.
Defined.

(** C8, as stated, fails in its last part: each of the two cases is
    reported in two lines, not one. *)
Lemma startup_errors_take_two_lines :
  console (snd (@main noArgument exactJimp start))
  = ["Error loading from folder."; "No folder name found; check arguments."]
  /\ console (snd (@main missingFolder exactJimp start))
     = ["Error loading from folder."; "Folder not found or could not be read."]
  /\ length (console (snd (@main noArgument exactJimp start))) <> 1%nat
  /\ length (console (snd (@main missingFolder exactJimp start))) <> 1%nat.
Proof. repeat split; vm_compute; congruence. Qed.

Lemma compositor_ignores_green_witness :
  @compositeStage noArgument exactJimp 0 1 2 3 "a" (withBitmap 2 (dot 1 2 3 4) layers)
  = (fst (@compositeStage noArgument exactJimp 0 1 2 3 "a" layers),
     withBitmap 2 (dot 1 2 3 4) (snd (@compositeStage noArgument exactJimp 0 1 2 3 "a" layers))).
Proof.
  apply (proj1 compositor_ignores_green noArgument exactJimp layers
           0%nat 1%nat 2%nat 3%nat "a" (dot 1 2 3 4)); lia.
Defined.

(* ===================================================================== *)
(** * The model at work                                                   *)
(* ===================================================================== *)

(** The threshold of coloredness is strict. *)
Example colored_above_100 :
  isPixelColored [100; 100; 100; 255] 0 = false
  /\ isPixelColored [100; 101; 100; 0] 0 = true
  /\ isPixelColored [100; 100; 100; 255] 4 = false.
Proof. repeat split; reflexivity. Qed.

(** In a bright 3 by 3 image the centre has four colored neighbours; a
    corner has two. *)
Example centre_is_surrounded :
  countAtOne (data (bright 3 3)) 3 3 16 = 4
  /\ isPixelSurrounded (data (bright 3 3)) 3 3 16 1 = true
  /\ countAtOne (data (bright 3 3)) 3 3 0 = 2.
Proof. repeat split; vm_compute; reflexivity. Qed.

(** The red highlighter on it: the centre becomes opaque red. *)
Example red_highlights_the_centre :
  getPixel (highlightScan 255 0 0 (bright 3 3)) 1 1 = Some (255, 0, 0, 255).
Proof. vm_compute. reflexivity. Qed.

(** The horror filter on it: the centre is rewritten and made opaque, the
    last pixel is found with a single colored neighbour left and is kept. *)
Example horror_rewrites_the_centre :
  getPixel (horrorBitmap (bright 3 3)) 1 1 = Some (0, 0, 0, 255)
  /\ getPixel (horrorBitmap (bright 3 3)) 2 2 = Some (240, 230, 220, 7).
Proof. split; vm_compute; reflexivity. Qed.

(** The program on a folder: one image is processed into seven files, the
    other is reported. *)
Example main_on_a_folder :
  fst (@main pictures exactJimp start) = Done ()
  /\ fst <$> disk (snd (@main pictures exactJimp start))
     = ["output/a-ed.png"; "output/a-sharpen.png"; "output/a-horror.png";
        "output/a-red.png"; "output/a-green.png"; "output/a-blue.png";
        "output/a-composite.png"]
  /\ take 3 (console (snd (@main pictures exactJimp start)))
     = ["[10:00] Loading folder pics. . .";
        "[10:00] 'a.png' found.  Processing image...";
        "[10:00] 'c.gif' found.  Processing image..."]
  /\ last (console (snd (@main pictures exactJimp start)))
     = Some "Error: pics/c.gif".
Proof. repeat split; vm_compute; reflexivity. Qed.

(* ===================================================================== *)
(** * Part III.  Further properties of the code                           *)
(* ===================================================================== *)

(** ** [isPixelSurrounded] *)

(** X1: at radius 1, for a pixel that is neither in the first nor in the
    last column, and is not the second pixel of the first row, the answer is
    the geometric one: whether at least two of the pixels to the east, west,
    north and south are in the image and colored. *)
Theorem isPixelSurrounded_geometric (im : Bitmap) (x y : Z) :
  1 <= x <= width im - 2 -> 0 <= y < height im -> (x, y) <> (1, 0) ->
  isPixelSurrounded (data im) (width im) (height im) (offsetOf im x y) 1
  = (2 <=? colouredNeighbours im x y).
Proof.
  intros Hx Hy Hne. rewrite isPixelSurrounded_one. f_equal.
  assert (Hxy : 1 < x \/ 0 < y)
    by (destruct (decide (x = 1)); destruct (decide (y = 0)); try lia; congruence).
  unfold countAtOne, colouredNeighbours, colouredAt. cbn [foldl].
  replace (offsetOf im (x + 1) y) with (offsetOf im x y + 4)
    by (unfold offsetOf; lia).
  replace (offsetOf im (x - 1) y) with (offsetOf im x y - 4)
    by (unfold offsetOf; lia).
  replace (offsetOf im x (y - 1)) with (offsetOf im x y - width im * 4)
    by (unfold offsetOf; lia).
  replace (offsetOf im x (y + 1)) with (offsetOf im x y + width im * 4)
    by (unfold offsetOf; lia).
  unfold offsetOf.
  set (W := width im) in *. set (H := height im) in *.
  assert (F1 : 0 <= W * y) by nia.
  assert (F2 : W * y <= W * H - W) by nia.
  assert (F3 : 1 <= y -> W <= W * y) by nia.
  assert (F4 : y <= H - 2 -> W * y <= W * H - 2 * W) by nia.
  assert (F5 : H - 1 <= y -> W * H - W <= W * y) by nia.
  assert (F6 : y <= 0 -> W * y <= 0) by nia.
  repeat match goal with
         | |- context [Z.ltb ?a ?b] => destruct (Z.ltb_spec a b); try lia
         | |- context [Z.leb ?a ?b] => destruct (Z.leb_spec a b); try lia
         end; cbn [andb]; reflexivity.
Qed.

Lemma isPixelSurrounded_geometric_witness :
  isPixelSurrounded (data (bright 3 3)) (width (bright 3 3)) (height (bright 3 3))
    (offsetOf (bright 3 3) 1 1) 1
  = (2 <=? colouredNeighbours (bright 3 3) 1 1).
Proof.
  apply (isPixelSurrounded_geometric (bright 3 3) 1 1);
    [vm_compute; split; congruence | vm_compute; split; congruence | congruence].
Defined.

(** X2: a pixel that is surrounded at a radius of at least 1 is surrounded
    at every smaller radius down to 1: each level of the recursion only adds
    a condition. *)
Theorem isPixelSurrounded_smaller_radius
    (imageData : Buffer) (imageWidth imageHeight pixel threshold radius : Z) :
  1 <= radius <= threshold ->
  isPixelSurrounded imageData imageWidth imageHeight pixel threshold = true ->
  isPixelSurrounded imageData imageWidth imageHeight pixel radius = true.
Proof.
  intros [Hr1 Hr2].
  assert (Hn : exists n : nat, threshold = radius + Z.of_nat n)
    by (exists (Z.to_nat (threshold - radius)); lia).
  destruct Hn as [n ->]. clear Hr2.
  induction n as [|n IH]; [by rewrite Z.add_0_r |].
  intros Htrue. apply IH.
  rewrite isPixelSurrounded_step in Htrue by lia.
  apply andb_true_iff in Htrue as [_ Htrue].
  by replace (radius + Z.of_nat (S n) - 1) with (radius + Z.of_nat n) in Htrue by lia.
Qed.

Lemma isPixelSurrounded_smaller_radius_witness :
  isPixelSurrounded (data (bright 9 9)) 9 9 160 2 = true
  /\ isPixelSurrounded (data (bright 9 9)) 9 9 160 1 = true.
Proof.
  split; [vm_compute; reflexivity |].
  apply (isPixelSurrounded_smaller_radius (data (bright 9 9)) 9 9 160 2 1);
    [lia | vm_compute; reflexivity].
Defined.

(** ** The channel highlighters *)

(** X3: every pixel of the three outputs, from the input image alone: the
    pure colour, opaque, where the input pixel is colored and surrounded;
    the input pixel where it is colored and not surrounded; transparent
    black where it is not colored.  The scan rewrites the image in place,
    and still decides each pixel as if on the input.  The Red and Green
    outputs show the columns from 0 on, the Blue output those from 50 on. *)
Theorem highlighters_pixelwise `{Host}
    (σ : World) (img : nat) (im : Bitmap) (redFile greenFile blueFile : string)
    (x y : Z) :
  heap σ !! img = Some im -> wellFormed im -> 50 <= width im ->
  0 <= x < width im - 50 -> 0 <= y < height im ->
  exists red green blue,
    returned (processRedImage img redFile) σ = Some red
    /\ returned (processGreenImage img greenFile) σ = Some green
    /\ returned (processBlueImage img blueFile) σ = Some blue
    /\ getPixel red x y = highlighted 255 0 0 im x y
    /\ getPixel green x y = highlighted 0 255 0 im x y
    /\ getPixel blue x y = highlighted 0 0 255 im (50 + x) y.
Proof.
  intros Hheld Hwf Hwide Hx Hy.
  destruct (cropped_scan im Hwf Hwide 255 0 0 0) as (red & Cr & _ & _ & Pr); [lia |].
  destruct (cropped_scan im Hwf Hwide 0 255 0 0) as (green & Cg & _ & _ & Pg); [lia |].
  destruct (cropped_scan im Hwf Hwide 0 0 255 50) as (blue & Cb & _ & _ & Pb); [lia |].
  exists red, green, blue.
  rewrite (returned_red σ img im Hheld Hwf Hwide).
  rewrite (returned_green σ img im Hheld Hwf Hwide).
  rewrite (returned_blue σ img im Hheld Hwf Hwide).
  split; [exact Cr |]. split; [exact Cg |]. split; [exact Cb |].
  rewrite Pr, Pg, Pb by lia. rewrite !Z.add_0_l.
  rewrite !highlightScan_pixel by (try done; try lia; vm_compute; auto).
  done.
Qed.

Lemma highlighters_pixelwise_witness :
  exists red green blue,
    returned (@processRedImage noArgument 0 "r.png") (holding lonely) = Some red
    /\ returned (@processGreenImage noArgument 0 "g.png") (holding lonely) = Some green
    /\ returned (@processBlueImage noArgument 0 "b.png") (holding lonely) = Some blue
    /\ getPixel red 1 1 = highlighted 255 0 0 lonely 1 1
    /\ getPixel green 1 1 = highlighted 0 255 0 lonely 1 1
    /\ getPixel blue 1 1 = highlighted 0 0 255 lonely (50 + 1) 1.
Proof.
  apply (@highlighters_pixelwise noArgument (holding lonely) 0%nat lonely);
    [reflexivity | apply lonely_wellFormed | vm_compute; congruence
    | vm_compute; split; congruence | vm_compute; split; congruence].
Defined.

Lemma colored_of_pixel (d : Buffer) (p r g b a : Z) :
  pixelAt d p = Some (r, g, b, a) ->
  isPixelColored d p = (100 <? r) || (100 <? g) || (100 <? b).
Proof.
  unfold pixelAt, isPixelColored.
  destruct (read d p); [| done]. destruct (read d (p + 1)); [| done].
  destruct (read d (p + 2)); [| done]. destruct (read d (p + 3)); [| done].
  by intros [= -> -> -> ->].
Qed.

Lemma colored_same_pixel (d d' : Buffer) (p : Z) :
  is_Some (pixelAt d p) -> pixelAt d' p = pixelAt d p ->
  isPixelColored d' p = isPixelColored d p.
Proof.
  intros [[[[r g] b] a] E] E'. rewrite E in E'.
  by rewrite (colored_of_pixel _ _ _ _ _ _ E), (colored_of_pixel _ _ _ _ _ _ E').
Qed.

Lemma vivid_highlightColours (r g b : Z) :
  (r, g, b) ∈ highlightColours ->
  (100 < r mod 256 \/ 100 < g mod 256 \/ 100 < b mod 256)
  /\ r mod 256 = r /\ g mod 256 = g /\ b mod 256 = b.
Proof.
  unfold highlightColours. rewrite !elem_of_cons, elem_of_nil.
  intros [[= -> -> ->] | [[= -> -> ->] | [[= -> -> ->] | []]]];
    vm_compute; intuition congruence.
Qed.

Section Mask.

Variables (r g b : Z) (im : Bitmap).

Hypothesis wf : wellFormed im.
Hypothesis colour : (r, g, b) ∈ highlightColours.

(** A scanned pixel is colored exactly when the input pixel is. *)
Lemma highlightScan_colored_at x y :
  0 <= x < width im -> 0 <= y < height im ->
  isPixelColored (data (highlightScan r g b im)) (offsetOf im x y)
  = isPixelColored (data im) (offsetOf im x y).
Proof.
  intros Hx Hy.
  destruct (vivid_highlightColours r g b colour) as (Hviv & Er & Eg & Eb).
  pose proof (highlightScan_pixel r g b im wf Hviv x y Hx Hy) as Hpx.
  unfold getPixel in Hpx.
  change (offsetOf (highlightScan r g b im) x y) with (offsetOf im x y) in Hpx.
  destruct wf as (HW & HH & Hlen & _).
  destruct (isPixelColored (data im) (offsetOf im x y)) eqn:Ecol.
  - destruct (isPixelSurrounded (data im) _ _ _ _).
    + rewrite (colored_of_pixel _ _ _ _ _ _ Hpx).
      destruct Hviv as [V | [V | V]]; apply Z.ltb_lt in V; rewrite V;
        by rewrite ?orb_true_r.
    + rewrite <- Ecol. apply colored_same_pixel; [| done].
      apply pixelAt_is_Some; unfold offsetOf; nia.
  - by rewrite (colored_of_pixel _ _ _ _ _ _ Hpx).
Qed.

Lemma highlightScan_colored_everywhere o :
  o mod 4 = 0 ->
  isPixelColored (data (highlightScan r g b im)) o = isPixelColored (data im) o.
Proof.
  intros Ho.
  destruct (vivid_highlightColours r g b colour) as (Hviv & _).
  pose proof (highlightScan_wellFormed r g b im wf) as (_ & _ & Hlen' & _).
  destruct wf as (HW & HH & Hlen & _).
  cbn [width height highlightScan scan] in Hlen'.
  destruct (decide (0 <= o < width im * height im * 4)) as [Hin | Hout].
  - assert (Hk : o = 4 * (o / 4)) by (pose proof (Z.div_mod o 4); lia).
    set (k := o / 4) in *.
    assert (HWpos : 0 < width im) by nia.
    pose proof (Z.div_mod k (width im) ltac:(lia)) as Hdm.
    pose proof (Z.mod_pos_bound k (width im) HWpos) as Hmod.
    assert (Hdiv0 : 0 <= k / width im) by (apply Z.div_pos; lia).
    assert (Hdiv1 : k / width im < height im)
      by (apply Z.div_lt_upper_bound; lia).
    replace o with (offsetOf im (k mod width im) (k / width im))
      by (unfold offsetOf; lia).
    by apply highlightScan_colored_at.
  - destruct (decide (o < 0)).
    + rewrite !isPixelColored_low; [done | |];
        pose proof (Z.div_mod o 4); lia.
    + rewrite !isPixelColored_high; [done | lia |].
      unfold highlightScan, scan in *. cbn [data] in *. lia.
Qed.

End Mask.

(** X4: the scan of a highlighter keeps the set of colored pixels (its
    output is colored exactly where its input is), and scanning a second
    time changes nothing. *)
Theorem highlightScan_idempotent (r g b : Z) (im : Bitmap) (x y : Z) :
  wellFormed im -> (r, g, b) ∈ highlightColours ->
  0 <= x < width im -> 0 <= y < height im ->
  isPixelColored (data (highlightScan r g b im)) (offsetOf im x y)
  = isPixelColored (data im) (offsetOf im x y)
  /\ getPixel (highlightScan r g b (highlightScan r g b im)) x y
     = getPixel (highlightScan r g b im) x y.
Proof.
  intros Hwf Hcol Hx Hy.
  split; [by apply highlightScan_colored_at |].
  destruct (vivid_highlightColours r g b Hcol) as (Hviv & Er & Eg & Eb).
  pose proof (highlightScan_wellFormed r g b im Hwf) as Hwf'.
  rewrite (highlightScan_pixel r g b (highlightScan r g b im) Hwf' Hviv x y) by done.
  change (offsetOf (highlightScan r g b im) x y) with (offsetOf im x y).
  change (width (highlightScan r g b im)) with (width im).
  change (height (highlightScan r g b im)) with (height im).
  rewrite (highlightScan_colored_at r g b im Hwf Hcol x y Hx Hy).
  assert (Hsur :
    isPixelSurrounded (data (highlightScan r g b im)) (width im) (height im)
      (offsetOf im x y) 1
    = isPixelSurrounded (data im) (width im) (height im) (offsetOf im x y) 1).
  { rewrite !isPixelSurrounded_one. f_equal. apply countAtOne_ext.
    - unfold offsetOf. rewrite Z.mul_comm. apply Z.mod_mul. lia.
    - intros o Ho. by apply highlightScan_colored_everywhere. }
  rewrite Hsur.
  rewrite (highlightScan_pixel r g b im Hwf Hviv x y Hx Hy).
  destruct (isPixelColored (data im) (offsetOf im x y)); [| done].
  destruct (isPixelSurrounded (data im) _ _ _ _); done.
Qed.

Lemma bright_wellFormed : wellFormed (bright 3 3).
Proof.
  repeat split; try (vm_compute; congruence).
  unfold bytes. apply Forall_forall. intros v Hv.
  apply list_elem_of_In in Hv. vm_compute in Hv.
  repeat (destruct Hv as [<- | Hv]; [lia |]). destruct Hv.
Qed.

Lemma highlightScan_idempotent_witness :
  isPixelColored (data (highlightScan 0 255 0 (bright 3 3))) (offsetOf (bright 3 3) 1 1)
  = isPixelColored (data (bright 3 3)) (offsetOf (bright 3 3) 1 1)
  /\ getPixel (highlightScan 0 255 0 (highlightScan 0 255 0 (bright 3 3))) 1 1
     = getPixel (highlightScan 0 255 0 (bright 3 3)) 1 1.
Proof.
  apply (highlightScan_idempotent 0 255 0 (bright 3 3) 1 1);
    [apply bright_wellFormed | right; left | vm_compute; split; congruence
    | vm_compute; split; congruence].
Defined.

(** ** The horror filter *)

Section HorrorValues.

Variable im : Bitmap.

Hypothesis wf : wellFormed im.

Let W := width im.
Let H := height im.
Let d0 := data im.

Let key (a : Z * Z) : Z := let '(x, y) := a in 4 * (W * y + x).
Let step (a : Z * Z) (d : Buffer) : Buffer :=
  let '(x, y) := a in horrorPixel W H x y (4 * (W * y + x)) d.
Let I (d : Buffer) : Prop :=
  len d = len d0 /\ bytes d
  /\ forall o, o mod 4 = 0 -> isPixelColored d o = true -> isPixelColored d0 o = true.

(** The buffer that the callback finds at the pixel [(x, y)]. *)
Lemma horror_visit x y :
  0 <= x < W -> 0 <= y < H ->
  exists d1,
    len d1 = len d0 /\ bytes d1
    /\ 0 <= offsetOf im x y /\ offsetOf im x y + 3 < len d0
    /\ pixelAt d1 (offsetOf im x y) = getPixel im x y
    /\ getPixel (horrorBitmap im) x y
       = pixelAt (horrorPixel W H x y (offsetOf im x y) d1) (offsetOf im x y).
Proof.
  intros Hx Hy.
  assert (Ha : (x, y) ∈ scanOrder 0 0 W H) by (apply elem_of_scanOrder; lia).
  destruct (horror_key_inside im wf _ Ha) as (Hal & H0 & H3).
  destruct wf as (_ & _ & _ & Hbytes).
  destruct (run_at key step (horror_frame im) I (scanOrder 0 0 W H) (x, y) d0)
    as (d1 & (Hlen & Hb1 & Hcol) & Hsame & Hres).
  - done.
  - apply NoDup_offsets. lia.
  - intros a' Ha'. by apply (horror_key_inside im wf).
  - intros a' d' Ha'. by apply (horror_invariant im wf).
  - done.
  - exists d1. split; [done |]. split; [done |]. split; [done |]. split; [done |].
    split.
    + unfold getPixel. apply pixelAt_ext. intros k Hk. by apply Hsame.
    + unfold getPixel. apply pixelAt_ext. intros k Hk.
      unfold horrorBitmap, scan, scanData. cbn [data]. by apply Hres.
Qed.

End HorrorValues.

(** X5: the horror filter stores no channel above 100.  Every pixel of its
    output is the input pixel, or an opaque pixel whose red, green and blue
    are between 0 and 100: the filter stores the minimum of four means and
    100. *)
Theorem horror_stores_at_most_100 (im : Bitmap) (x y : Z) :
  wellFormed im -> 0 <= x < width im -> 0 <= y < height im ->
  getPixel (horrorBitmap im) x y = getPixel im x y
  \/ exists r g b,
       getPixel (horrorBitmap im) x y = Some (r, g, b, 255)
       /\ 0 <= r <= 100 /\ 0 <= g <= 100 /\ 0 <= b <= 100.
Proof.
  intros Hwf Hx Hy.
  destruct (horror_visit im Hwf x y Hx Hy)
    as (d1 & Hlen & Hb & H0 & H3 & Hsame & ->).
  unfold horrorPixel.
  destruct (isPixelSurrounded d1 _ _ _ 1); [| by left].
  right. rewrite pixelAt_paint by lia.
  repeat match goal with
         | |- context [toInteger (min5 ?n ?e ?s ?w)] =>
             let B := fresh "B" in
             assert (B : 0 <= toInteger (min5 n e s w) <= 100)
               by (apply toInteger_min5; by apply mean3_nonNegative);
             generalize dependent (toInteger (min5 n e s w)); intros
         end.
  rewrite !Z.mod_small by lia. by eauto 10.
Qed.

Lemma horror_stores_at_most_100_witness :
  getPixel (horrorBitmap (bright 3 3)) 1 1 = getPixel (bright 3 3) 1 1
  \/ exists r g b,
       getPixel (horrorBitmap (bright 3 3)) 1 1 = Some (r, g, b, 255)
       /\ 0 <= r <= 100 /\ 0 <= g <= 100 /\ 0 <= b <= 100.
Proof.
  apply (horror_stores_at_most_100 (bright 3 3) 1 1);
    [apply bright_wellFormed | vm_compute; split; congruence
    | vm_compute; split; congruence].
Defined.

Lemma mean3_undefined (d : Buffer) (a b c : Z) :
  read d a = None \/ read d b = None \/ read d c = None -> mean3 d a b c = None.
Proof.
  unfold mean3. intros [E | [E | E]]; rewrite E; try done.
  - by destruct (read d a).
  - destruct (read d a); [| done]. by destruct (read d b).
Qed.

Lemma min5_undefined (n e s w : option Q) :
  n = None \/ e = None \/ s = None \/ w = None -> toInteger (min5 n e s w) = 0.
Proof.
  unfold min5. intros [E | [E | [E | E]]]; rewrite E;
    destruct n, e, s, w; done.
Qed.

(** X6: the horror filter reads its neighbours without a bounds check.  In
    the first and in the last row a mean reads outside the buffer and is
    [NaN], so that a pixel rewritten there becomes opaque black: every output
    pixel of those rows is the input pixel or [(0, 0, 0, 255)]. *)
Theorem horror_blackens_border_rows (im : Bitmap) (x y : Z) :
  wellFormed im -> 0 <= x < width im -> 0 <= y < height im ->
  y = 0 \/ y = height im - 1 ->
  getPixel (horrorBitmap im) x y = getPixel im x y
  \/ getPixel (horrorBitmap im) x y = Some (0, 0, 0, 255).
Proof.
  intros Hwf Hx Hy Hrow.
  destruct (horror_visit im Hwf x y Hx Hy)
    as (d1 & Hlen & Hb & H0 & H3 & Hsame & ->).
  destruct Hwf as (HW & HH & Hsize & _). rewrite Hsize in Hlen.
  unfold horrorPixel.
  destruct (isPixelSurrounded d1 _ _ _ 1); [| by left].
  right. rewrite pixelAt_paint by lia.
  unfold offsetOf in *.
  destruct Hrow as [-> | ->].
  - rewrite !min5_undefined; [done | | |]; left; apply mean3_undefined; left;
      apply read_None_low; lia.
  - rewrite !min5_undefined; [done | | |]; right; left; apply mean3_undefined;
      right; right; apply read_None_high; lia.
Qed.

Lemma horror_blackens_border_rows_witness :
  getPixel (horrorBitmap (bright 3 3)) 1 0 = getPixel (bright 3 3) 1 0
  \/ getPixel (horrorBitmap (bright 3 3)) 1 0 = Some (0, 0, 0, 255).
Proof.
  apply (horror_blackens_border_rows (bright 3 3) 1 0);
    [apply bright_wellFormed | vm_compute; split; congruence
    | vm_compute; split; congruence | by left].
Defined.

(** ** File names *)

Lemma substring_all (s : string) : String.substring 0 (String.length s) s = s.
Proof. induction s as [| c s IH]; [done |]. cbn. by rewrite IH. Qed.

Lemma substring_split (s : string) (m : nat) :
  (m <= String.length s)%nat ->
  String.substring 0 m s +:+ String.substring m (String.length s - m) s = s.
Proof.
  revert m. induction s as [| c s IH]; intros m Hm.
  - cbn in Hm. by replace m with 0%nat by lia.
  - destruct m as [| m].
    + cbn. by rewrite substring_all.
    + cbn in Hm.
      transitivity
        (String c (String.substring 0 m s +:+ String.substring m (String.length s - m) s));
        [reflexivity |].
      by rewrite IH by lia.
Qed.

Lemma substring_after (s1 s2 : string) :
  String.substring (String.length s1) (String.length s2) (s1 +:+ s2) = s2.
Proof. induction s1 as [| c s1 IH]; [apply substring_all | exact IH]. Qed.

Lemma length_append (s1 s2 : string) :
  String.length (s1 +:+ s2) = (String.length s1 + String.length s2)%nat.
Proof.
  induction s1 as [| c s1 IH]; [done |].
  change (S (String.length (s1 +:+ s2)) = S (String.length s1 + String.length s2)).
  by rewrite IH.
Qed.

Lemma lastIndexFrom_range (c : Ascii.ascii) (s : string) (i found : Z) :
  -1 <= found < i ->
  -1 <= lastIndexFrom c s i found < i + Z.of_nat (String.length s).
Proof.
  revert i found. induction s as [| a s IH]; intros i found Hf.
  - cbn. lia.
  - cbn [lastIndexFrom String.length].
    specialize (IH (i + 1) (if Ascii.eqb a c then i else found)).
    destruct (Ascii.eqb a c); lia.
Qed.

Lemma lastIndexFrom_append (c : Ascii.ascii) (s1 s2 : string) (i found : Z) :
  lastIndexFrom c (s1 +:+ s2) i found
  = lastIndexFrom c s2 (i + Z.of_nat (String.length s1)) (lastIndexFrom c s1 i found).
Proof.
  revert i found. induction s1 as [| a s1 IH]; intros i found.
  - cbn. by rewrite Z.add_0_r.
  - change (String a s1 +:+ s2) with (String a (s1 +:+ s2)).
    cbn [lastIndexFrom String.length]. rewrite IH. f_equal. lia.
Qed.

Lemma nameOf_extensionOf (file : string) : nameOf file +:+ extensionOf file = file.
Proof.
  unfold nameOf, extensionOf, substring, lastIndexOf, clamp.
  pose proof (lastIndexFrom_range "." file 0 (-1)) as Hk.
  set (k := lastIndexFrom "." file 0 (-1)) in *.
  set (n := String.length file).
  assert (Hm : exists m : nat, (m <= n)%nat /\ Z.max 0 (Z.min (Z.of_nat n) k) = Z.of_nat m).
  { exists (Z.to_nat (Z.max 0 (Z.min (Z.of_nat n) k))). lia. }
  destruct Hm as (m & Hm & ->).
  replace (Z.max 0 (Z.min (Z.of_nat n) 0)) with 0 by lia.
  replace (Z.max 0 (Z.min (Z.of_nat n) (Z.of_nat n))) with (Z.of_nat n) by lia.
  replace (Z.min 0 (Z.of_nat m)) with 0 by lia.
  replace (Z.max 0 (Z.of_nat m) - 0) with (Z.of_nat m) by lia.
  replace (Z.min (Z.of_nat m) (Z.of_nat n)) with (Z.of_nat m) by lia.
  replace (Z.max (Z.of_nat m) (Z.of_nat n) - Z.of_nat m) with (Z.of_nat (n - m)) by lia.
  rewrite !Nat2Z.id. change (Z.to_nat 0) with 0%nat.
  by apply substring_split.
Qed.

(** X7: the name and the extension that [loadFolder] cuts out of a file
    name concatenate back to the file name, whether it has a dot or not (with
    no dot the name is empty and the extension is the whole file name): the
    path given to [JIMP.read] is the folder, a slash and the file name. *)
Theorem name_and_extension_rebuild_the_file (folder file : string) :
  nameOf file +:+ extensionOf file = file
  /\ pathOf folder file = folder +:+ "/" +:+ file.
Proof.
  split; [apply nameOf_extensionOf |]. unfold pathOf.
  by rewrite nameOf_extensionOf.
Qed.

Lemma extensionOf_suffix (name ext : string) :
  ext ∈ IMAGE_EXTENSIONS -> extensionOf (name +:+ ext) = ext.
Proof.
  intros Hext.
  assert (Hk : lastIndexOf "." (name +:+ ext) = Z.of_nat (String.length name)).
  { unfold lastIndexOf. rewrite lastIndexFrom_append.
    unfold IMAGE_EXTENSIONS in Hext.
    repeat (apply elem_of_cons in Hext as [-> | Hext]; [cbn; lia |]).
    by apply elem_of_nil in Hext. }
  unfold extensionOf, substring, clamp. rewrite Hk, length_append.
  set (a := String.length name). set (b := String.length ext).
  replace (Z.max 0 (Z.min (Z.of_nat (a + b)) (Z.of_nat a))) with (Z.of_nat a) by lia.
  replace (Z.max 0 (Z.min (Z.of_nat (a + b)) (Z.of_nat (a + b))))
    with (Z.of_nat (a + b)) by lia.
  replace (Z.min (Z.of_nat a) (Z.of_nat (a + b))) with (Z.of_nat a) by lia.
  replace (Z.max (Z.of_nat a) (Z.of_nat (a + b)) - Z.of_nat a) with (Z.of_nat b) by lia.
  rewrite !Nat2Z.id. apply substring_after.
Qed.

(** X8: [loadFolder] takes a file for an image exactly when its name ends
    with one of [.png], [.jpg], [.jpeg], [.gif], in these very letters: the
    extension it compares starts at the last dot of the name. *)
Theorem image_files_by_suffix `{Host} (folder file : string) :
  file ∈ imageFiles folder
  <-> file ∈ readdirSync folder
      /\ exists name ext, ext ∈ IMAGE_EXTENSIONS /\ file = name +:+ ext.
Proof.
  unfold imageFiles. rewrite list_elem_of_filter. split.
  - intros [Hext Hin]. split; [done |].
    exists (nameOf file), (extensionOf file). split; [done |].
    symmetry. apply nameOf_extensionOf.
  - intros [Hin (name & ext & Hext & ->)]. split; [| done].
    by rewrite extensionOf_suffix.
Qed.

(** ** The files written by [loadFolder] *)

Section Writes.

Context `{Host, Jimp}.

Implicit Types names : list string.

Lemma writesOnly_quiet {A} names (m : M A) :
  (forall σ, disk (snd (m σ)) = disk σ) -> writesOnly names m.
Proof. intros Hm σ. exists []. by rewrite app_nil_r, Hm. Qed.

Lemma writesOnly_ret {A} names (a : A) : writesOnly names (mret a).
Proof. by apply writesOnly_quiet. Qed.

Lemma writesOnly_bind {A B} names (m : M A) (k : A -> M B) :
  writesOnly names m -> (forall a, writesOnly names (k a)) ->
  writesOnly names (m ≫= k).
Proof.
  intros Hm Hk σ. destruct (Hm σ) as (f1 & E1 & F1).
  unfold mbind, M_bind. destruct (m σ) as [[a | e] σ1]; cbn [snd] in *.
  - destruct (Hk a σ1) as (f2 & E2 & F2). exists (f1 ++ f2).
    rewrite E2, E1, app_assoc. split; [done |]. by apply Forall_app.
  - by exists f1.
Qed.

Lemma writesOnly_catch {A} names (m : M A) (handler : string -> M A) :
  writesOnly names m -> (forall e, writesOnly names (handler e)) ->
  writesOnly names (catch m handler).
Proof.
  intros Hm Hk σ. destruct (Hm σ) as (f1 & E1 & F1).
  unfold catch. destruct (m σ) as [[a | e] σ1]; cbn [snd] in *.
  - by exists f1.
  - destruct (Hk e σ1) as (f2 & E2 & F2). exists (f1 ++ f2).
    rewrite E2, E1, app_assoc. split; [done |]. by apply Forall_app.
Qed.

Lemma writesOnly_weaken {A} names names' (m : M A) :
  names ⊆ names' -> writesOnly names m -> writesOnly names' m.
Proof.
  intros Hsub Hm σ. destruct (Hm σ) as (files & E & F).
  exists files. split; [done |].
  eapply Forall_impl; [exact F |]. intros f Hf. by apply Hsub.
Qed.

Lemma writesOnly_forEach {A} names (f : A -> M unit) (l : list A) :
  (forall a, a ∈ l -> writesOnly names (f a)) -> writesOnly names (forEach f l).
Proof.
  induction l as [| a l IH]; intros Hf; [apply writesOnly_ret |].
  cbn [forEach]. apply writesOnly_bind.
  - apply Hf, elem_of_cons. by left.
  - intros _. apply IH. intros a' Ha'. apply Hf, elem_of_cons. by right.
Qed.

Lemma writesOnly_log names line : writesOnly names (log line).
Proof. by apply writesOnly_quiet. Qed.

Lemma writesOnly_alloc names bm : writesOnly names (alloc bm).
Proof. by apply writesOnly_quiet. Qed.

Lemma writesOnly_bitmap names image : writesOnly names (bitmap image).
Proof.
  apply writesOnly_quiet. intros σ. unfold bitmap. by destruct (heap σ !! image).
Qed.

Lemma writesOnly_setBitmap names image bm : writesOnly names (setBitmap image bm).
Proof. by apply writesOnly_quiet. Qed.

Lemma writesOnly_throw {A} names e : writesOnly names (throw (A := A) e).
Proof. by apply writesOnly_quiet. Qed.

Lemma writesOnly_clone names img : writesOnly names (clone img).
Proof.
  apply writesOnly_bind; [apply writesOnly_bitmap |].
  intros bm. apply writesOnly_alloc.
Qed.

Lemma writesOnly_writeFile names image filename :
  filename ∈ names -> writesOnly names (writeFile image filename).
Proof.
  intros Hin. apply writesOnly_bind; [apply writesOnly_bitmap |].
  intros bm σ. exists [(filename, bm)]. split; [done |]. by apply Forall_singleton.
Qed.

Lemma writesOnly_convoluteIn names image kernel :
  writesOnly names (convoluteIn image kernel).
Proof.
  apply writesOnly_bind; [apply writesOnly_bitmap |].
  intros bm. apply writesOnly_setBitmap.
Qed.

Lemma writesOnly_scanIn names image x y w h f :
  writesOnly names (scanIn image x y w h f).
Proof.
  apply writesOnly_bind; [apply writesOnly_bitmap |].
  intros bm. apply writesOnly_setBitmap.
Qed.

Lemma writesOnly_cropIn names image x y w h : writesOnly names (cropIn image x y w h).
Proof.
  apply writesOnly_bind; [apply writesOnly_bitmap |].
  intros bm. destruct (crop x y w h bm);
    [apply writesOnly_setBitmap | apply writesOnly_throw].
Qed.

Lemma writesOnly_compositeIn names base src x y :
  writesOnly names (compositeIn base src x y).
Proof.
  apply writesOnly_bind; [apply writesOnly_bitmap |]. intros s.
  apply writesOnly_bind; [apply writesOnly_bitmap |]. intros b.
  apply writesOnly_setBitmap.
Qed.

(** The steps of a filter, one after the other. *)
Ltac steps Hin :=
  repeat first
    [ apply writesOnly_ret | apply writesOnly_log | apply writesOnly_clone
    | apply writesOnly_bitmap | apply writesOnly_convoluteIn
    | apply writesOnly_scanIn | apply writesOnly_cropIn
    | apply writesOnly_compositeIn
    | apply writesOnly_writeFile; exact Hin
    | apply writesOnly_bind; [| intros ?] ].

Lemma writesOnly_processEdgeDetect names img filename :
  filename ∈ names -> writesOnly names (processEdgeDetect img filename).
Proof. intros Hin. unfold processEdgeDetect. steps Hin. Qed.

Lemma writesOnly_processSharpen names img filename :
  filename ∈ names -> writesOnly names (processSharpen img filename).
Proof. intros Hin. unfold processSharpen. steps Hin. Qed.

Lemma writesOnly_processHorrorFilter names img filename :
  filename ∈ names -> writesOnly names (processHorrorFilter img filename).
Proof. intros Hin. unfold processHorrorFilter. steps Hin. Qed.

Lemma writesOnly_processRedImage names img filename :
  filename ∈ names -> writesOnly names (processRedImage img filename).
Proof. intros Hin. unfold processRedImage. steps Hin. Qed.

Lemma writesOnly_processGreenImage names img filename :
  filename ∈ names -> writesOnly names (processGreenImage img filename).
Proof. intros Hin. unfold processGreenImage. steps Hin. Qed.

Lemma writesOnly_processBlueImage names img filename :
  filename ∈ names -> writesOnly names (processBlueImage img filename).
Proof. intros Hin. unfold processBlueImage. steps Hin. Qed.

Lemma writesOnly_compositeStage names originalImage redImage greenImage blueImage name :
  OUTPUT_DIR +:+ "/" +:+ name +:+ "-composite.png" ∈ names ->
  writesOnly names (compositeStage originalImage redImage greenImage blueImage name).
Proof. intros Hin. unfold compositeStage. steps Hin. Qed.

(** One of the seven names. *)
Ltac output :=
  unfold outputNames; rewrite !fmap_cons;
  repeat first [ apply list_elem_of_here | apply list_elem_of_further ].

Lemma writesOnly_onImage image name : writesOnly (outputNames name) (onImage image name).
Proof.
  unfold onImage.
  apply writesOnly_bind; [apply writesOnly_bitmap | intros bm].
  apply writesOnly_bind; [apply writesOnly_log | intros _].
  apply writesOnly_bind; [apply writesOnly_clone | intros originalImage].
  apply writesOnly_bind; [apply writesOnly_processEdgeDetect; output | intros _].
  apply writesOnly_bind; [apply writesOnly_processSharpen; output | intros _].
  apply writesOnly_bind; [apply writesOnly_processHorrorFilter; output | intros _].
  apply writesOnly_bind; [apply writesOnly_processRedImage; output | intros redImage].
  apply writesOnly_bind; [apply writesOnly_processGreenImage; output | intros greenImage].
  apply writesOnly_bind; [apply writesOnly_processBlueImage; output | intros blueImage].
  apply writesOnly_compositeStage; output.
Qed.

Lemma writesOnly_onFile folder file :
  writesOnly (writtenFor folder file) (onFile folder file).
Proof.
  unfold writtenFor, onFile. destruct (decode (pathOf folder file)) as [bm | err].
  - apply writesOnly_catch; [| intros e; apply writesOnly_log].
    apply writesOnly_bind; [apply writesOnly_alloc |].
    intros image. apply writesOnly_onImage.
  - apply writesOnly_log.
Qed.

Lemma forEach_log (line : string -> string) (l : list string) (σ : World) :
  forEach (fun file => log (line file)) l σ
  = (Done (),
     {| heap := heap σ; console := console σ ++ (line <$> l); disk := disk σ |}).
Proof.
  revert σ. induction l as [| file l IH]; intros σ.
  - cbn. rewrite app_nil_r. by destruct σ.
  - cbn [forEach]. erewrite bind_done; [| apply log_run]. rewrite IH.
    cbn [heap console disk]. by rewrite fmap_cons, <- app_assoc.
Qed.

(** The loop over the directory only prints; the images are processed
    afterwards, one file after the other. *)
Lemma loadFolder_run folder σ :
  loadFolder folder σ
  = forEach (onFile folder) (imageFiles folder)
      {| heap := heap σ;
         console := (console σ ++ [getCurrentTime +:+ "Loading folder " +:+ folder +:+ ". . ."])
                    ++ (announcement <$> imageFiles folder);
         disk := disk σ |}.
Proof.
  change (loadFolder folder)
    with (log (getCurrentTime +:+ "Loading folder " +:+ folder +:+ ". . .");;
          forEach (fun file => log (announcement file)) (imageFiles folder);;
          forEach (onFile folder) (imageFiles folder)).
  erewrite bind_done; [| apply log_run].
  erewrite bind_done; [| apply forEach_log].
  reflexivity.
Qed.

Lemma forEach_onFile_writesOnly folder files :
  writesOnly (files ≫= writtenFor folder) (forEach (onFile folder) files).
Proof.
  apply writesOnly_forEach. intros file Hfile.
  eapply writesOnly_weaken; [| apply writesOnly_onFile].
  intros n Hn. apply list_elem_of_bind. by exists file.
Qed.

Lemma writesOnly_loadFolder folder :
  writesOnly (imageFiles folder ≫= writtenFor folder) (loadFolder folder).
Proof.
  intros σ. rewrite loadFolder_run.
  destruct (forEach_onFile_writesOnly folder (imageFiles folder)
              {| heap := heap σ;
                 console := (console σ ++ [getCurrentTime +:+ "Loading folder " +:+ folder
                                           +:+ ". . ."])
                            ++ (announcement <$> imageFiles folder);
                 disk := disk σ |}) as (files & E & F).
  by exists files.
Qed.

(** *** Completion *)

Lemma forEach_done {A} (f : A -> M unit) (l : list A) :
  (forall a σ, a ∈ l -> fst (f a σ) = Done ()) ->
  forall σ, fst (forEach f l σ) = Done ().
Proof.
  induction l as [| a l IH]; intros Hf σ; [done |].
  cbn [forEach]. unfold mbind, M_bind.
  pose proof (Hf a σ) as Ha. destruct (f a σ) as [[[] | e] σ1]; cbn [fst] in Ha.
  - apply IH. intros a' σ' Ha'. apply Hf, elem_of_cons. by right.
  - exfalso. assert (Ha' : a ∈ a :: l) by (apply elem_of_cons; by left).
    specialize (Ha Ha'). discriminate Ha.
Qed.

Lemma onFile_done folder file σ : fst (onFile folder file σ) = Done ().
Proof.
  unfold onFile. destruct (decode (pathOf folder file)) as [bm | err]; [| done].
  unfold catch.
  match goal with
  | |- context [let (_, _) := ?m in _] => destruct m as [[[] | e] σ1]
  | |- context [match ?m with _ => _ end] => destruct m as [[[] | e] σ1]
  end; reflexivity.
Qed.

Lemma loadFolder_done folder σ : fst (loadFolder folder σ) = Done ().
Proof.
  rewrite loadFolder_run. apply forEach_done. intros file σ' _. apply onFile_done.
Qed.

(** *** A file that decodes to an image wide enough *)

Lemma onFile_good folder file bm σ :
  decode (pathOf folder file) = inl bm -> wellFormed bm -> 50 <= width bm ->
  exists σ',
    onFile folder file σ = (Done (), σ')
    /\ fst <$> disk σ' = (fst <$> disk σ) ++ outputNames (nameOf file).
Proof.
  intros Hdec Hwf Hwide. unfold onFile. rewrite Hdec.
  destruct (cropped_scan bm Hwf Hwide 255 0 0 0) as (red & Hred & _); [lia |].
  destruct (cropped_scan bm Hwf Hwide 0 255 0 0) as (green & Hgreen & _); [lia |].
  destruct (cropped_scan bm Hwf Hwide 0 0 255 50) as (blue & Hblue & _); [lia |].
  destruct (cropped_scan_wellFormed bm 255 0 0 0 red Hwf Hwide) as (HwfR & _);
    [lia | done |].
  destruct (cropped_scan_wellFormed bm 0 0 255 50 blue Hwf Hwide) as (HwfB & _);
    [lia | done |].
  destruct (@compositeBitmap_spec _ bm red blue Hwf Hwide HwfR HwfB) as (out & Hout & _).
  set (σ1 := {| heap := heap σ ++ [bm]; console := console σ; disk := disk σ |}).
  destruct (@onImage_run _ _ σ1 (length (heap σ)) (nameOf file) bm (lookup_snoc _ _)
              red green blue out Hred Hgreen Hblue Hout) as (lines & Hrun).
  eexists. unfold catch. erewrite bind_done; [| reflexivity].
  fold σ1. rewrite Hrun. split; [reflexivity |].
  cbn [disk σ1]. by rewrite fmap_app.
Qed.

Lemma onFile_keeps folder file σ :
  (fst <$> disk σ) ⊆ (fst <$> disk (snd (onFile folder file σ))).
Proof.
  destruct (writesOnly_onFile folder file σ) as (files & -> & _).
  rewrite fmap_app. intros n Hn. apply elem_of_app. by left.
Qed.

Lemma forEach_onFile_keeps folder files σ :
  (fst <$> disk σ) ⊆ (fst <$> disk (snd (forEach (onFile folder) files σ))).
Proof.
  revert σ. induction files as [| file files IH]; intros σ; [done |].
  cbn [forEach]. unfold mbind, M_bind.
  pose proof (onFile_done folder file σ) as Hd.
  pose proof (onFile_keeps folder file σ) as Hk.
  destruct (onFile folder file σ) as [[[] | e] σ1]; [| discriminate Hd].
  cbn [snd] in Hk. etrans; [exact Hk | apply IH].
Qed.

End Writes.

(** X9: [loadFolder] writes nothing but the outputs of the image files that
    decode.  Whatever the folder holds and however the processing of an
    image ends, the files on the disk afterwards are those that were there
    and files named as one of the seven outputs of a file of the folder that
    has an image extension and that [JIMP.read] could decode. *)
Theorem loadFolder_writes_only_outputs `{Host, Jimp} (folder : string) (σ : World) :
  exists files,
    disk (snd (loadFolder folder σ)) = disk σ ++ files
    /\ Forall (fun f => exists file bm,
                 file ∈ imageFiles folder
                 /\ decode (pathOf folder file) = inl bm
                 /\ fst f ∈ outputNames (nameOf file)) files.
Proof.
  destruct (writesOnly_loadFolder folder σ) as (files & E & F).
  exists files. split; [done |].
  eapply Forall_impl; [exact F |]. intros f Hf.
  apply list_elem_of_bind in Hf as (file & Hn & Hfile).
  unfold writtenFor in Hn.
  destruct (decode (pathOf folder file)) as [bm | err] eqn:Hdec.
  - by exists file, bm.
  - by apply elem_of_nil in Hn.
Qed.

(** X10: a failure on one image does not stop the others.  [loadFolder]
    ends without an exception (the promise's [catch] prints it), and for
    every image file of the folder that decodes to a well-formed image at
    least 50 pixels wide the seven outputs are written, whatever the other
    files of the folder are. *)
Theorem loadFolder_isolates_failures `{Host, Jimp}
    (folder file : string) (bm : Bitmap) (σ : World) :
  file ∈ imageFiles folder -> decode (pathOf folder file) = inl bm ->
  wellFormed bm -> 50 <= width bm ->
  fst (loadFolder folder σ) = Done ()
  /\ outputNames (nameOf file) ⊆ (fst <$> disk (snd (loadFolder folder σ))).
Proof.
  intros Hfile Hdec Hwf Hwide. split; [apply loadFolder_done |].
  rewrite loadFolder_run.
  match goal with |- context [forEach _ _ ?w] => generalize w end.
  induction (imageFiles folder) as [| file' files IH]; intros σ1.
  { by apply elem_of_nil in Hfile. }
  cbn [forEach]. unfold mbind, M_bind.
  apply elem_of_cons in Hfile as [<- | Hfile].
  - destruct (onFile_good folder file bm σ1 Hdec Hwf Hwide) as (σ2 & -> & Hnames).
    etrans; [| apply forEach_onFile_keeps].
    rewrite Hnames. intros n Hn. apply elem_of_app. by right.
  - pose proof (onFile_done folder file' σ1) as Hd.
    destruct (onFile folder file' σ1) as [[[] | e] σ2]; [| discriminate Hd].
    by apply IH.
Qed.

Lemma loadFolder_isolates_failures_witness :
  fst (@loadFolder pictures exactJimp "pics" start) = Done ()
  /\ outputNames (nameOf "a.png")
     ⊆ (fst <$> disk (snd (@loadFolder pictures exactJimp "pics" start))).
Proof.
  apply (@loadFolder_isolates_failures pictures exactJimp "pics" "a.png" lonely start).
  - vm_compute. constructor.
  - reflexivity.
  - apply lonely_wellFormed.
  - vm_compute. congruence.
Defined.

(** X11: the run of the program on a folder.  When the third argument
    names an existing folder in which every image that [JIMP.read] decodes
    is well formed and at least 50 pixels wide, [main] ends without an
    exception and has written, up to their order, the seven outputs of each
    file that has an image extension and decodes, and no other file. *)
Theorem main_outputs `{Host, Jimp} (folder : string) :
  argv !! 2%nat = Some folder -> existsSync folder = true ->
  (forall file bm, file ∈ imageFiles folder -> decode (pathOf folder file) = inl bm ->
                   wellFormed bm /\ 50 <= width bm) ->
  fst (main start) = Done ()
  /\ fst <$> disk (snd (main start)) ≡ₚ imageFiles folder ≫= writtenFor folder.
Proof.
  intros Harg Hexists Hgood.
  assert (Hmain : main = loadFolder folder).
  { unfold main. rewrite Harg. cbn [default from_option id]. rewrite Hexists.
    apply lookup_lt_Some in Harg.
    destruct (Nat.leb_spec 3 (length argv)); [done | lia]. }
  rewrite Hmain. split; [apply loadFolder_done |].
  rewrite loadFolder_run.
  enough (Hall : forall files σ,
             files ⊆ imageFiles folder ->
             fst <$> disk (snd (forEach (onFile folder) files σ))
             = (fst <$> disk σ) ++ (files ≫= writtenFor folder)).
  { by rewrite Hall. }
  induction files as [| file files IH]; intros σ Hsub.
  { cbn. by rewrite app_nil_r. }
  cbn [forEach]. unfold mbind, M_bind.
  assert (Hfile : file ∈ imageFiles folder) by (apply Hsub, elem_of_cons; by left).
  assert (Hrest : files ⊆ imageFiles folder).
  { intros f Hf. apply Hsub, elem_of_cons. by right. }
  rewrite bind_cons. unfold writtenFor at 1.
  destruct (decode (pathOf folder file)) as [bm | err] eqn:Hdec.
  - destruct (Hgood file bm Hfile Hdec) as [Hwf Hwide].
    destruct (onFile_good folder file bm σ Hdec Hwf Hwide) as (σ' & -> & Hnames).
    rewrite IH by done. by rewrite Hnames, app_assoc.
  - unfold onFile. rewrite Hdec. rewrite log_run. by rewrite IH by done.
Qed.

Lemma main_outputs_witness :
  fst (@main pictures exactJimp start) = Done ()
  /\ fst <$> disk (snd (@main pictures exactJimp start))
     ≡ₚ @imageFiles pictures "pics" ≫= @writtenFor pictures "pics".
Proof.
  apply (@main_outputs pictures exactJimp "pics"); [reflexivity | reflexivity |].
  intros file bm Hfile Hdec.
  assert (Hfiles : @imageFiles pictures "pics" = ["a.png"; "c.gif"]) by (by vm_compute).
  rewrite Hfiles in Hfile.
  repeat (apply elem_of_cons in Hfile as [-> | Hfile]);
    [| discriminate Hdec | by apply elem_of_nil in Hfile].
  injection Hdec as <-. split; [apply lonely_wellFormed | vm_compute; congruence].
Defined.
